(** * jquery.parsequery: a shallow embedding of [$.parseQuery]

    The development follows [src/jquery.parsequery.js].  JavaScript strings
    are sequences of 16-bit code units, the output object [params] is a
    finite map from decoded keys to slots, exceptions are the left summand
    of a sum type, and the objects the function reads and writes
    ([$.parseQuery] itself, the caller's options, the per-call [config])
    live in a store of objects addressed by references.

    Scope of the model.
    - Decoded values are primitive JavaScript values; a number is an
      integer that a JavaScript number holds exactly.
    - [params] is an object literal: it has its own properties and, as
      long as its prototype is not set to [null], what [Object.prototype]
      defines in ECMA-262 (Annex B included).  Properties that other
      scripts add to [Object.prototype] are not modelled.
    - A separator is a literal string or a pattern that matches exactly
      one code unit of a class; other patterns are not modelled.
    - [decode], [default_decode] and [array_keys.test] are functions of
      their arguments (and, for [decode], of a read-only view of [this]);
      they do not touch the store. *)

From Stdlib Require Import ZArith.
From stdpp Require Import gmap strings list fin_maps pretty.

Open Scope Z_scope.

(** ** Strings *)

Module JsString.

(** A JavaScript string: its UTF-16 code units. *)
Definition jsstring : Type := list Z.

Definition code (a : Ascii.ascii) : Z := Z.of_N (Ascii.N_of_ascii a).

(** The code units of an ASCII literal. *)
Fixpoint str (s : string) : jsstring :=
  match s with
  | EmptyString => []
  | String a s' => code a :: str s'
  end.

Definition AMP : Z := 38.      (* & *)
Definition PERCENT : Z := 37.  (* % *)
Definition PLUS : Z := 43.     (* + *)
Definition SPACE : Z := 32.
Definition EQUALS : Z := 61.   (* = *)
Definition QUESTION : Z := 63. (* ? *)

(** [prefix_of p s]: does [s] start with [p]? *)
Fixpoint prefix_of (p s : jsstring) : bool :=
  match p, s with
  | [], _ => true
  | _ :: _, [] => false
  | a :: p', b :: s' => (a =? b) && prefix_of p' s'
  end.

(** [String.prototype.split] with a non-empty literal separator: [cur]
    is the token being read (the substring from [p] to [q] of the
    standard's algorithm) and [skip] counts the code units of a matched
    separator that are still to be passed over. *)
Fixpoint split_at (sep : jsstring) (skip : nat) (cur s : jsstring)
  : list jsstring :=
  match s with
  | [] => [cur]
  | c :: s' =>
      match skip with
      | S k => split_at sep k cur s'
      | O =>
          if prefix_of sep s
          then cur :: split_at sep (length sep - 1) [] s'
          else split_at sep 0 (cur ++ [c]) s'
      end
  end.

(** [s.split(sep)] for a literal [sep]; the empty separator splits
    between all code units, and splits the empty string into nothing. *)
Definition split (sep s : jsstring) : list jsstring :=
  match sep with
  | [] => (fun c => [c]) <$> s
  | _ :: _ => split_at sep 0 [] s
  end.

(** [s.split(re)] for a pattern [re] that matches exactly one code unit
    of a class, such as [/[&;]/]. *)
Fixpoint split_class (cls : Z -> bool) (cur s : jsstring) : list jsstring :=
  match s with
  | [] => [cur]
  | c :: s' =>
      if cls c then cur :: split_class cls [] s'
      else split_class cls (cur ++ [c]) s'
  end.

(** [Array.prototype.join]. *)
Fixpoint join (sep : jsstring) (l : list jsstring) : jsstring :=
  match l with
  | [] => []
  | [x] => x
  | x :: l' => x ++ sep ++ join sep l'
  end.

(** [s.replace(c, d)] for one-code-unit literals [c] and [d]: only the
    first occurrence is replaced. *)
Fixpoint replace_first (c d : Z) (s : jsstring) : jsstring :=
  match s with
  | [] => []
  | x :: s' => if x =? c then d :: s' else x :: replace_first c d s'
  end.

(** [s.replace(/^\?/, '')]. *)
Definition strip_question (s : jsstring) : jsstring :=
  match s with
  | c :: s' => if c =? QUESTION then s' else s
  | [] => []
  end.

End JsString.
Import JsString.

(** ** Exceptions and results *)

Inductive exn : Type :=
  | URIError (message : string)
  | TypeError (message : string)
  | Error (message : string).

Definition result (A : Type) : Type := exn + A.
Definition Ok {A} (a : A) : result A := inr a.
Definition Throw {A} (e : exn) : result A := inl e.

Definition rbind {A B} (r : result A) (k : A -> result B) : result B :=
  match r with
  | inl e => inl e
  | inr a => k a
  end.

Declare Scope result_scope.
Delimit Scope result_scope with result.
Notation "'try' x <- r ; k" := (rbind r (fun x => k))
  (at level 10, x name, r at level 100, k at level 200) : result_scope.
Open Scope result_scope.

(** ** The built-in [decodeURIComponent] *)

Module Uri.

Definition malformed : exn := URIError "URI malformed".

Definition hex_digit (c : Z) : option Z :=
  if (48 <=? c) && (c <=? 57) then Some (c - 48)
  else if (65 <=? c) && (c <=? 70) then Some (c - 55)
  else if (97 <=? c) && (c <=? 102) then Some (c - 87)
  else None.

(** A code unit taken literally, or the octet of a [%XX] escape. *)
Inductive item : Type :=
  | Lit (c : Z)
  | Oct (b : Z).

(** Reads the escapes: every [%] must be followed by two hex digits. *)
Fixpoint unescape (s : jsstring) : result (list item) :=
  match s with
  | [] => Ok []
  | c :: s' =>
      if c =? PERCENT then
        match s' with
        | h :: l :: s'' =>
            match hex_digit h, hex_digit l with
            | Some x, Some y =>
                try r <- unescape s''; Ok (Oct (16 * x + y) :: r)
            | _, _ => Throw malformed
            end
        | _ => Throw malformed
        end
      else try r <- unescape s'; Ok (Lit c :: r)
  end.

(** A continuation octet [10xxxxxx]. *)
Definition is_cont (b : Z) : bool := Z.land b 192 =? 128.

Definition payload (b : Z) : Z := Z.land b 63.

(** The code units of a code point: itself, or a surrogate pair. *)
Definition utf16 (cp : Z) : jsstring :=
  if cp <? 65536 then [cp]
  else [55296 + Z.shiftr (cp - 65536) 10; 56320 + Z.land (cp - 65536) 1023].

Definition is_surrogate (cp : Z) : bool := (55296 <=? cp) && (cp <=? 57343).

(** Octet runs must be well-formed UTF-8: no stray continuation, no
    overlong form, no surrogate, nothing above U+10FFFF. *)
Fixpoint utf8 (l : list item) : result jsstring :=
  match l with
  | [] => Ok []
  | Lit c :: l' => try r <- utf8 l'; Ok (c :: r)
  | Oct b :: l' =>
      if b <? 128 then try r <- utf8 l'; Ok (b :: r)
      else if Z.land b 224 =? 192 then
        match l' with
        | Oct b1 :: l'' =>
            let cp := Z.lor (Z.shiftl (Z.land b 31) 6) (payload b1) in
            if is_cont b1 && (128 <=? cp)
            then try r <- utf8 l''; Ok (utf16 cp ++ r)
            else Throw malformed
        | _ => Throw malformed
        end
      else if Z.land b 240 =? 224 then
        match l' with
        | Oct b1 :: Oct b2 :: l'' =>
            let cp := Z.lor (Z.shiftl (Z.land b 15) 12)
                        (Z.lor (Z.shiftl (payload b1) 6) (payload b2)) in
            if is_cont b1 && is_cont b2 && (2048 <=? cp)
               && negb (is_surrogate cp)
            then try r <- utf8 l''; Ok (utf16 cp ++ r)
            else Throw malformed
        | _ => Throw malformed
        end
      else if Z.land b 248 =? 240 then
        match l' with
        | Oct b1 :: Oct b2 :: Oct b3 :: l'' =>
            let cp := Z.lor (Z.shiftl (Z.land b 7) 18)
                        (Z.lor (Z.shiftl (payload b1) 12)
                           (Z.lor (Z.shiftl (payload b2) 6) (payload b3))) in
            if is_cont b1 && is_cont b2 && is_cont b3
               && (65536 <=? cp) && (cp <=? 1114111)
            then try r <- utf8 l''; Ok (utf16 cp ++ r)
            else Throw malformed
        | _ => Throw malformed
        end
      else Throw malformed
  end.

(** [decodeURIComponent(s)] of ECMA-262 (Decode with an empty reserved
    set), which throws a URIError on a malformed escape and on octets
    that are not UTF-8. *)
Definition decodeURIComponent (s : jsstring) : result jsstring :=
  try l <- unescape s; utf8 l.

End Uri.
Import Uri.

(** ** Values *)

(** [Number.MAX_SAFE_INTEGER], [2^53 - 1]. *)
Definition MAX_SAFE_INTEGER : Z := 9007199254740991.

(** A primitive JavaScript value; a number is a safe integer. *)
Inductive value : Type :=
  | VUndefined
  | VNull
  | VBool (b : bool)
  | VNumber (n : Z) (safe : Is_true (Z.abs n <=? MAX_SAFE_INTEGER))
  | VString (s : jsstring).

(** ToBoolean. *)
Definition truthy (v : value) : bool :=
  match v with
  | VUndefined | VNull => false
  | VBool b => b
  | VNumber n _ => negb (n =? 0)
  | VString s => negb (bool_decide (s = []))
  end.

(** ToBoolean of an object, arrays included, is always true. *)
Definition object_truthy {A : Type} (o : A) : bool := true.

(** [v || w]. *)
Definition or_else (v w : value) : value := if truthy v then v else w.

(** [v.toString()]: [undefined] and [null] have no properties; a safe
    integer is below [1e21] and is written with all its digits. *)
Definition toString (v : value) : result jsstring :=
  match v with
  | VUndefined => Throw (TypeError "cannot read toString of undefined")
  | VNull => Throw (TypeError "cannot read toString of null")
  | VBool true => Ok (str "true")
  | VBool false => Ok (str "false")
  | VNumber n _ => Ok (str (pretty n))
  | VString s => Ok s
  end.

(** [Array.prototype.shift]: the first element, [undefined] when there is
    none, and the array that is left. *)
Definition shift (pair : list jsstring) : value * list jsstring :=
  match pair with
  | [] => (VUndefined, [])
  | x :: rest => (VString x, rest)
  end.

(** What the output object holds under a key: a decoded value, or the
    array that [push] extends. *)
Inductive slot : Type :=
  | Scalar (v : value)
  | Sequence (vs : list value).

Definition slot_truthy (s : slot) : bool :=
  match s with
  | Scalar v => truthy v
  | Sequence vs => object_truthy vs
  end.

(** [s.push(v)]: primitive values have no [push] method. *)
Definition push (s : slot) (v : value) : result slot :=
  match s with
  | Sequence vs => Ok (Sequence (vs ++ [v]))
  | Scalar _ => Throw (TypeError "push is not a function")
  end.

(** ** The object literal [params] *)

(** What [Object.prototype] defines under a name: a function, which is a
    writable data property, or the accessor [__proto__]. *)
Inductive inherited : Type :=
  | Method
  | Accessor.

Definition PROTO : jsstring := str "__proto__".

Definition object_prototype (key : jsstring) : option inherited :=
  if bool_decide (key = PROTO) then Some Accessor
  else if bool_decide
            (key ∈ str <$>
               ["constructor"; "hasOwnProperty"; "isPrototypeOf";
                "propertyIsEnumerable"; "toLocaleString"; "toString";
                "valueOf"; "__defineGetter__"; "__defineSetter__";
                "__lookupGetter__"; "__lookupSetter__"])
  then Some Method
  else None.

(** An object created by [{}]: its own properties, and whether its
    prototype is still [Object.prototype] (it can only become [null]). *)
Record jsobject : Type := JsObject {
  own :> gmap jsstring slot;
  inherits : bool
}.

(** [{}] *)
Global Instance jsobject_empty : Empty jsobject := JsObject ∅ true.

(** What [params[key]] evaluates to. *)
Inductive property : Type :=
  | Own (s : slot)
  | Inherited   (* a function of Object.prototype, or Object.prototype *)
  | Undefined.

(** [params[key]]: an own property first, then the prototype. *)
Definition get (params : jsobject) (key : jsstring) : property :=
  match own params !! key with
  | Some s => Own s
  | None =>
      if inherits params then
        if object_prototype key is Some _ then Inherited else Undefined
      else Undefined
  end.

(** The own property [key] is created or overwritten. *)
Definition define (params : jsobject) (key : jsstring) (s : slot)
  : jsobject :=
  JsObject (<[key := s]> (own params)) (inherits params).

(** [params[key] = value] for a primitive [value].  Without an own
    property, the name [__proto__] reaches the setter of
    [Object.prototype]: [null] becomes the prototype, any other primitive
    is ignored, and in both cases no property is created.  Every other
    name, inherited functions included, gets an own property. *)
Definition put (params : jsobject) (key : jsstring) (value : value)
  : jsobject :=
  match own params !! key, inherits params, object_prototype key with
  | None, true, Some Accessor =>
      match value with
      | VNull => JsObject (own params) false
      | _ => params
      end
  | _, _, _ => define params key (Scalar value)
  end.

(** ** Configuration objects *)

(** What can be used as the first argument of [String.prototype.split]:
    a literal string, or a pattern matching one code unit of a class. *)
Inductive splitter : Type :=
  | SepString (s : jsstring)
  | SepPattern (cls : Z -> bool).

(** A field the caller added for the use of its own [decode]. *)
Inductive extra : Type :=
  | XValue (v : value)
  | XTest (test : jsstring -> bool).

(** The fields of an options object that [decode] can read through
    [this].  An absent field is [None]. *)
Record bundle : Type := Bundle {
  query : option jsstring;
  separator : option splitter;
  default_decode : option (value -> result value);
  array_keys : option (jsstring -> bool);
  extras : gmap string extra
}.

(** [decode(input, context)], called with [this] bound to the options. *)
Definition decoder : Type := bundle -> value -> value -> result value.

Record object : Type := Object {
  fields :> bundle;
  decode : option decoder
}.

Definition empty_object : object :=
  Object (Bundle None None None None ∅) None.

(** [{query: q}]. *)
Definition query_object (q : jsstring) : object :=
  Object (Bundle (Some q) None None None ∅) None.

(** The part of [$.extend(target, ..., source, ...)] that copies one
    source: every field the source defines is assigned to the target. *)
Definition assign (target source : object) : object :=
  Object
    (Bundle
       (if query source is Some q then Some q else query target)
       (if separator source is Some s then Some s else separator target)
       (if default_decode source is Some f then Some f
        else default_decode target)
       (if array_keys source is Some p then Some p else array_keys target)
       (extras source ∪ extras target))
    (if decode source is Some f then Some f else decode target).

(** ** The defaults installed on [$.parseQuery] *)

Module Defaults.

(** [function (string) {
       return decodeURIComponent((string || "").replace('+', ' ')); }] *)
Definition default_decode (string : value) : result value :=
  match or_else string (VString []) with
  | VString s =>
      try r <- decodeURIComponent (replace_first PLUS SPACE s);
      Ok (VString r)
  | _ => Throw (TypeError "replace is not a function")
  end.

(** [$.parseQuery.decode] is the same function. *)
Definition decode : decoder := fun _ string _ => default_decode string.

(** [{test: function () { return false; }}] *)
Definition array_keys (key : jsstring) : bool := false.

Definition separator : splitter := SepString (str "&").

Definition globals : object :=
  Object
    (Bundle None (Some separator) (Some default_decode) (Some array_keys) ∅)
    (Some decode).

End Defaults.

(** ** The loop of [$.parseQuery] *)

Section Loop.

(** The per-call [config], after [$.extend] and the removal of [?]. *)
Variable config : object.

(** [config.decode(input, context)]. *)
Definition call_decode (input context : value) : result value :=
  match decode config with
  | Some f => f (fields config) input context
  | None => Throw (TypeError "config.decode is not a function")
  end.

(** [config.array_keys.test(key)]. *)
Definition call_test (key : jsstring) : result bool :=
  match array_keys config with
  | Some test => Ok (test key)
  | None => Throw (TypeError "cannot read test of undefined")
  end.

(** [param.split('=')], [pair.shift()] and
    [pair ? pair.join('=') : null]: the raw key and the raw value that
    are handed to [decode].  After the shift the variable [pair] of the
    source holds [rest]. *)
Definition raw_pair (param : jsstring) : value * value :=
  let '(first, rest) := shift (split (str "=") param) in
  (first, if object_truthy rest then VString (join (str "=") rest)
          else VNull).

(** The two [decode] calls of one iteration. *)
Definition decode_pair (param : jsstring) : result (jsstring * value) :=
  let '(rawkey, rawvalue) := raw_pair param in
  try k <- call_decode rawkey VNull;
  try key <- toString k;
  try value <- call_decode rawvalue (VString key);
  Ok (key, value).

(** The rest of the iteration: the update of [params]. *)
Definition store_pair (params : jsobject)
    (key : jsstring) (value : value) : result jsobject :=
  try is_array <- call_test key;
  if (is_array : bool) then
    match get params key with
    | Inherited =>
        (* params[key] = params[key] || [];  the inherited object is
           truthy and is assigned back: as an own property, or through the
           setter of __proto__, which keeps the prototype as it is.
           params[key].push(value);  it has no push. *)
        Throw (TypeError "params[key].push is not a function")
    | Own s =>
        (* params[key] = params[key] || []; *)
        let current := if slot_truthy s then s else Sequence [] in
        let params := define params key current in
        (* params[key].push(value); *)
        try pushed <- push current value;
        Ok (define params key pushed)
    | Undefined =>
        (* params[key] = params[key] || []; *)
        let current := Sequence [] in
        let params := define params key current in
        (* params[key].push(value); *)
        try pushed <- push current value;
        Ok (define params key pushed)
    end
  else
    (* params[key] = value; *)
    Ok (put params key value).

(** The function passed to [$.each]. *)
Definition callback (params : jsobject) (param : jsstring)
  : result jsobject :=
  try kv <- decode_pair param;
  store_pair params kv.1 kv.2.

(** [$.each(array, callback)]: the elements in index order; an
    exception leaves the loop. *)
Fixpoint each (array : list jsstring) (params : jsobject)
  : result jsobject :=
  match array with
  | [] => Ok params
  | param :: rest =>
      try params' <- callback params param;
      each rest params'
  end.

(** [config.query.split(config.separator)]; [split(undefined)] does not
    split. *)
Definition tokens : result (list jsstring) :=
  match query config with
  | None => Throw (TypeError "cannot read split of undefined")
  | Some q =>
      Ok match separator config with
         | None => [q]
         | Some (SepString s) => split s q
         | Some (SepPattern cls) => split_class cls [] q
         end
  end.

(** [params = {}] and the loop. *)
Definition run : result jsobject :=
  try array <- tokens;
  each array ∅.

(** [return params]: the caller is given the object; the mapping it
    stands for is its own properties. *)
Definition returned : result (gmap jsstring slot) :=
  try params <- run;
  Ok (own params).

End Loop.

(** ** The store *)

(** References to objects. *)
Definition loc : Type := nat.

(** The function object [$.parseQuery], whose properties are the
    process-wide defaults. *)
Definition parseQuery_ref : loc := 0%nat.

Record store : Type := Store {
  heap : gmap loc object;
  search : jsstring              (* window.location.search *)
}.

(** Computations that read and write the store and may throw. *)
Definition M (A : Type) : Type := store -> result A * store.

Definition ret {A} (a : A) : M A := fun st => (Ok a, st).

Definition bind {A B} (m : M A) (k : A -> M B) : M B :=
  fun st =>
    match m st with
    | (inl e, st') => (inl e, st')
    | (inr a, st') => k a st'
    end.

Definition lift {A} (r : result A) : M A := fun st => (r, st).

Notation "'do' x <- m ; k" := (bind m (fun x => k))
  (at level 10, x name, m at level 100, k at level 200) : result_scope.

(** An object literal: a new object under a reference that is not in use. *)
Definition alloc (o : object) : M loc :=
  fun st =>
    let r := fresh ({[parseQuery_ref]} ∪ dom (heap st)) in
    (Ok r, Store (<[r := o]> (heap st)) (search st)).

Definition load (r : loc) : M object :=
  fun st => (Ok (default empty_object (heap st !! r)), st).

Definition write (r : loc) (o : object) : M unit :=
  fun st => (Ok tt, Store (<[r := o]> (heap st)) (search st)).

Definition location_search : M jsstring :=
  fun st => (Ok (search st), st).

(** [$.extend(target, source1, source2, ...)]: sources that are [null]
    or [undefined] are skipped, the others are copied in order. *)
Fixpoint extend (target : loc) (sources : list (option loc)) : M unit :=
  match sources with
  | [] => ret tt
  | None :: rest => extend target rest
  | Some source :: rest =>
      do s <- load source;
      do t <- load target;
      do _ <- write target (assign t s);
      extend target rest
  end.

(** [config.query = q]. *)
Definition set_query (o : object) (q : jsstring) : object :=
  Object
    (Bundle (Some q) (separator o) (default_decode o) (array_keys o)
       (extras o))
    (decode o).

(** The argument of a call: nothing, a string, or an options object. *)
Inductive argument : Type :=
  | ArgUndefined
  | ArgString (s : jsstring)
  | ArgObject (r : loc).

(** [$.parseQuery = function (options) { ... }] *)
Definition parseQuery (options : argument) : M (gmap jsstring slot) :=
  (* var config = {query: window.location.search || ""}, params = {}; *)
  do s <- location_search;
  do config <-
    alloc (query_object
             (match or_else (VString s) (VString []) with
              | VString q => q
              | _ => []
              end));
  (* if (typeof options === 'string') { options = {query: options}; } *)
  do options <-
    match options with
    | ArgString q => do r <- alloc (query_object q); ret (Some r)
    | ArgObject r => ret (Some r)
    | ArgUndefined => ret None
    end;
  (* $.extend(config, $.parseQuery, options); *)
  do _ <- extend config [Some parseQuery_ref; options];
  (* config.query = config.query.replace(/^\?/, ''); *)
  do c <- load config;
  do q <-
    lift match query c with
         | Some q => Ok q
         | None => Throw (TypeError "cannot read replace of undefined")
         end;
  do _ <- write config (set_query c (strip_question q));
  (* $.each(config.query.split(config.separator), ...); return params; *)
  do c <- load config;
  lift (returned c).

(** A page whose only object is [$.parseQuery] with its defaults. *)
Definition fresh_page (search : jsstring) : store :=
  Store {[parseQuery_ref := Defaults.globals]} search.

(** ** Vocabulary of the statements *)

(** The decoded key and value of every token, in order; the first
    exception wins. *)
Fixpoint decode_all (config : object) (array : list jsstring)
  : result (list (jsstring * value)) :=
  match array with
  | [] => Ok []
  | param :: rest =>
      try kv <- decode_pair config param;
      try kvs <- decode_all config rest;
      Ok (kv :: kvs)
  end.

(** The values decoded for [key], in the order of their tokens. *)
Definition occurrences (key : jsstring) (kvs : list (jsstring * value))
  : list value :=
  (filter (fun kv => kv.1 = key) kvs).*2.

Definition is_sequence (s : slot) : bool :=
  match s with
  | Sequence _ => true
  | Scalar _ => false
  end.

(** Every key of [params] holds an array exactly when [test] accepts it. *)
Definition kinded (test : jsstring -> bool) (params : gmap jsstring slot)
  : Prop :=
  forall key s, params !! key = Some s -> is_sequence s = test key.

(** The object the argument of a call stands for. *)
Definition options_object (options : argument) (st : store) : object :=
  match options with
  | ArgUndefined => empty_object
  | ArgString q => query_object q
  | ArgObject r => default empty_object (heap st !! r)
  end.

(** An object argument refers to an object of the store. *)
Definition valid_argument (options : argument) (st : store) : Prop :=
  match options with
  | ArgObject r => r = parseQuery_ref \/ is_Some (heap st !! r)
  | _ => True
  end.

(** The [config] a call works with: the page's query string, overridden
    by the properties of [$.parseQuery], overridden by the options, with
    one leading [?] removed from the query. *)
Definition effective_config (options : argument) (st : store) : object :=
  let base :=
    query_object
      (match or_else (VString (search st)) (VString []) with
       | VString q => q
       | _ => []
       end) in
  let merged :=
    assign
      (assign base (default empty_object (heap st !! parseQuery_ref)))
      (options_object options st) in
  set_query merged (strip_question (default [] (query merged))).

(** [/\[\]$/.test(key)] and the like: does [key] end with [suffix]? *)
Definition ends_with (suffix key : jsstring) : bool :=
  prefix_of (reverse suffix) (reverse key).

(** A caller's [decode] that tells an absent value from an empty one:
    [function (input, context) {
       return input === null ? "absent" : this.default_decode(input); }] *)
Definition null_aware : decoder :=
  fun this input context =>
    match input with
    | VNull => Ok (VString (str "absent"))
    | _ =>
        match default_decode this with
        | Some f => f input
        | None => Throw (TypeError "this.default_decode is not a function")
        end
    end.

(** The array already collected in a slot, if any. *)
Definition seq_of (before : option slot) : list value :=
  match before with
  | Some (Sequence vs) => vs
  | _ => []
  end.

(** What a key holds after the values [vs] have been stored under it, in
    that order, on top of [before]. *)
Definition stored (is_array : bool) (before : option slot) (vs : list value)
  : option slot :=
  match vs with
  | [] => before
  | _ :: _ =>
      if is_array then Some (Sequence (seq_of before ++ vs))
      else Scalar <$> last vs
  end.

(** [decode] throws [e] on the raw key of [param], or on its raw value
    after the key has been decoded. *)
Definition decode_raises (config : object) (param : jsstring) (e : exn)
  : Prop :=
  call_decode config (raw_pair param).1 VNull = Throw e
  \/ exists k key,
       call_decode config (raw_pair param).1 VNull = Ok k
       /\ toString k = Ok key
       /\ call_decode config (raw_pair param).2 (VString key) = Throw e.

(** A page with the default [$.parseQuery] and one options object. *)
Definition page_with (o : object) : store :=
  Store {[parseQuery_ref := Defaults.globals; 1%nat := o]} [].

(** [{query: q, array_keys: /\[\]$/}] *)
Definition bracket_options (q : jsstring) : object :=
  Object (Bundle (Some q) None None (Some (ends_with (str "[]"))) ∅) None.

(** [{query: q, decode: null_aware}] *)
Definition null_aware_options (q : jsstring) : object :=
  Object (Bundle (Some q) None None None ∅) (Some null_aware).

(** [{query: q, separator: /[&;]/}] *)
Definition semicolon_options (q : jsstring) : object :=
  Object
    (Bundle (Some q) (Some (SepPattern (fun c => (c =? AMP) || (c =? 59))))
       None None ∅)
    None.

(** ** Vocabulary of the further properties *)

(** The properties of [$.parseQuery] in a store. *)
Definition globals_of (st : store) : object :=
  default empty_object (heap st !! parseQuery_ref).

(** An options object that defines every recognised option. *)
Definition complete (o : object) : Prop :=
  is_Some (query o) /\ is_Some (separator o) /\ is_Some (decode o)
  /\ is_Some (default_decode o) /\ is_Some (array_keys o).

(** A slot that holds one string. *)
Definition string_slot (s : slot) : Prop :=
  exists v, s = Scalar (VString v).

(** What a key holds after a second run of tokens has been stored on top
    of a first one: arrays are concatenated, a later value replaces an
    earlier one. *)
Definition merge_slot (earlier later : option slot) : option slot :=
  match earlier, later with
  | _, None => earlier
  | None, Some _ => later
  | Some (Sequence a), Some (Sequence b) => Some (Sequence (a ++ b))
  | Some _, Some _ => later
  end.

(** [$.parseQuery] with the separator [c], the test [test] and a decode
    function [f] that does not use [this]. *)
Definition plain_globals (c : Z) (test : jsstring -> bool)
    (f : value -> value -> result value) : object :=
  Object
    (Bundle None (Some (SepString [c])) None (Some test) ∅)
    (Some (fun _ => f)).

(** A complete options object: [&] separates, no key is an array. *)
Definition complete_options (q : jsstring) : object :=
  Object
    (Bundle (Some q) (Some Defaults.separator)
       (Some Defaults.default_decode) (Some Defaults.array_keys) ∅)
    (Some Defaults.decode).

(** A page whose [$.parseQuery] splits on [;] and makes every key an
    array, with one options object. *)
Definition other_page (o : object) : store :=
  Store
    {[parseQuery_ref :=
        Object
          (Bundle None (Some (SepString (str ";")))
             (Some Defaults.default_decode) (Some (fun _ => true)) ∅)
          (Some Defaults.decode);
      1%nat := o]}
    (str "?z=9").

(** A raw key or value in which no code unit is special to the default
    configuration: no [&], no [%] and no [+]. *)
Definition plain (s : jsstring) : Prop :=
  (AMP ∉ s) /\ (PERCENT ∉ s) /\ (PLUS ∉ s).

(** A raw key can be written as it is: it is plain and has no [=]. *)
Definition plain_key (s : jsstring) : Prop :=
  plain s /\ (EQUALS ∉ s).

(** The token [key=value]. *)
Definition pair_token (kv : jsstring * jsstring) : jsstring :=
  kv.1 ++ EQUALS :: kv.2.

(** The query string [k1=v1&k2=v2&...]. *)
Definition query_of (kvs : list (jsstring * jsstring)) : jsstring :=
  join [AMP] (pair_token <$> kvs).

(** The binding a decoded pair leaves in the returned object. *)
Definition binding (kv : jsstring * jsstring) : jsstring * slot :=
  (kv.1, Scalar (VString kv.2)).

(** A key that [params] can take like any other: as an array key it is
    no name of [Object.prototype], as a scalar key it is not
    [__proto__]. *)
Definition storable (test : jsstring -> bool) (key : jsstring) : Prop :=
  if test key then object_prototype key = None else key <> PROTO.

(** [{query: q, array_keys: /^/}]: every key is an array key. *)
Definition every_key_options (q : jsstring) : object :=
  Object (Bundle (Some q) None None (Some (fun _ => true)) ∅) None.

(** Two states of [params] from which the loop goes the same way: the
    same prototype, keys of the right kinds, and the same keys present
    among those that are not storable. *)
Definition alike (test : jsstring -> bool) (pa pb : jsobject) : Prop :=
  inherits pa = inherits pb
  /\ kinded test pa
  /\ kinded test pb
  /\ forall key,
       ~ storable test key ->
       (is_Some (own pa !! key) <-> is_Some (own pb !! key)).

(** Two results of the loop that agree: the same exception, or objects
    that are alike. *)
Definition agree (test : jsstring -> bool) (ra rb : result jsobject)
  : Prop :=
  match ra, rb with
  | inl ea, inl eb => ea = eb
  | inr pa, inr pb => alike test pa pb
  | _, _ => False
  end.

(** ** Checks of the model on the examples of the documentation *)

Example split_amp : split (str "&") (str "a=b&&c") = [str "a=b"; []; str "c"].
Proof. reflexivity. Qed.

Example split_two : split (str "&&") (str "a&&&b&&") = [str "a"; str "&b"; []].
Proof. reflexivity. Qed.

Example split_empty_string : split (str "&") [] = [[]].
Proof. reflexivity. Qed.

Example decode_ae : decodeURIComponent (str "%C3%A6") = Ok [230].
Proof. reflexivity. Qed.

Example decode_plus : decodeURIComponent (str "c%2Bd") = Ok (str "c+d").
Proof. reflexivity. Qed.

Example decode_astral :
  decodeURIComponent (str "%F0%9F%98%80") = Ok [55357; 56832].
Proof. reflexivity. Qed.

Example decode_percent : decodeURIComponent (str "%") = Throw malformed.
Proof. reflexivity. Qed.

Example decode_surrogate :
  decodeURIComponent (str "%ED%A0%80") = Throw malformed.
Proof. reflexivity. Qed.

Example readme_two_keys :
  (parseQuery (ArgString (str "?a=b&c=d")) (fresh_page [])).1
  = Ok {[ str "a" := Scalar (VString (str "b"));
          str "c" := Scalar (VString (str "d")) ]}.
Proof. vm_compute. reflexivity. Qed.

Example readme_valueless :
  (parseQuery (ArgString (str "?a&b=c&=d&e=")) (fresh_page [])).1
  = Ok {[ str "a" := Scalar (VString []);
          str "b" := Scalar (VString (str "c"));
          [] := Scalar (VString (str "d"));
          str "e" := Scalar (VString []) ]}.
Proof. vm_compute. reflexivity. Qed.

Example readme_location :
  (parseQuery ArgUndefined (fresh_page (str "?a=b"))).1
  = Ok {[ str "a" := Scalar (VString (str "b")) ]}.
Proof. vm_compute. reflexivity. Qed.

Example readme_semicolons :
  (parseQuery (ArgObject 1%nat)
     (page_with (semicolon_options (str "a=1;b=2&c=3")))).1
  = Ok {[ str "a" := Scalar (VString (str "1"));
          str "b" := Scalar (VString (str "2"));
          str "c" := Scalar (VString (str "3")) ]}.
Proof. vm_compute. reflexivity. Qed.

Example later_token_throws :
  (parseQuery (ArgString (str "a=1&b=%zz&c=3")) (fresh_page [])).1
  = Throw malformed.
Proof. vm_compute. reflexivity. Qed.

(** ** Facts about the string operations *)

Section StringFacts.

Lemma prefix_of_app (p s : jsstring) :
  prefix_of p s = true -> s = p ++ drop (length p) s.
Proof.
  revert s. induction p as [|a p IH]; intros [|b s] Hp; simpl in *; try done.
  apply andb_true_iff in Hp as [Hab Hp].
  apply Z.eqb_eq in Hab as ->. f_equal. by apply IH.
Qed.

Lemma split_at_nonempty sep skip cur s : split_at sep skip cur s <> [].
Proof.
  revert skip cur. induction s as [|c s IH]; intros skip cur; simpl; [done|].
  destruct skip; [|apply IH]. destruct (prefix_of sep (c :: s)); [done|apply IH].
Qed.

Lemma join_cons sep x l : l <> [] -> join sep (x :: l) = x ++ sep ++ join sep l.
Proof. by destruct l. Qed.

(** Joining the pieces with the separator gives the string back. *)
Lemma join_split_at sep skip cur s :
  sep <> [] ->
  join sep (split_at sep skip cur s) = cur ++ drop skip s.
Proof.
  intros Hsep. revert skip cur.
  induction s as [|c s IH]; intros skip cur; simpl.
  - by rewrite drop_nil, app_nil_r.
  - destruct skip as [|k]; [|by rewrite IH].
    destruct (prefix_of sep (c :: s)) eqn:Hp.
    + rewrite join_cons by apply split_at_nonempty.
      rewrite IH. simpl. f_equal.
      apply prefix_of_app in Hp.
      destruct sep as [|a sep]; [done|]. simpl in *.
      by rewrite Nat.sub_0_r.
    + rewrite IH. by rewrite <- app_assoc.
Qed.

Lemma join_split sep s : sep <> [] -> join sep (split sep s) = s.
Proof.
  intros Hsep. destruct sep as [|a sep]; [done|].
  unfold split. by rewrite join_split_at.
Qed.

(** A one-unit separator: the first piece ends at its first occurrence. *)
Lemma split_at_first c cur k v :
  c ∉ k ->
  split_at [c] 0 cur (k ++ c :: v) = (cur ++ k) :: split_at [c] 0 [] v.
Proof.
  revert cur. induction k as [|x k IH]; intros cur Hk; simpl.
  - rewrite Z.eqb_refl. simpl. by rewrite app_nil_r.
  - apply not_elem_of_cons in Hk as [Hx Hk].
    destruct (c =? x) eqn:E; [apply Z.eqb_eq in E; congruence|]. simpl.
    rewrite IH by done. by rewrite <- app_assoc.
Qed.

Lemma split_at_absent c cur k :
  c ∉ k -> split_at [c] 0 cur k = [cur ++ k].
Proof.
  revert cur. induction k as [|x k IH]; intros cur Hk; simpl.
  - by rewrite app_nil_r.
  - apply not_elem_of_cons in Hk as [Hx Hk].
    destruct (c =? x) eqn:E; [apply Z.eqb_eq in E; congruence|]. simpl.
    rewrite IH by done. by rewrite <- app_assoc.
Qed.

Lemma replace_first_app c d pre post :
  c ∉ pre ->
  replace_first c d (pre ++ c :: post) = pre ++ d :: post.
Proof.
  induction pre as [|x pre IH]; intros Hpre; simpl.
  - by rewrite Z.eqb_refl.
  - apply not_elem_of_cons in Hpre as [Hx Hpre].
    destruct (x =? c) eqn:E; [apply Z.eqb_eq in E; congruence|].
    by rewrite IH.
Qed.

Lemma replace_first_absent c d s : c ∉ s -> replace_first c d s = s.
Proof.
  induction s as [|x s IH]; intros Hs; simpl; [done|].
  apply not_elem_of_cons in Hs as [Hx Hs].
  destruct (x =? c) eqn:E; [apply Z.eqb_eq in E; congruence|].
  by rewrite IH.
Qed.

End StringFacts.

(** ** The raw key and the raw value of a token *)

Lemma raw_pair_split (k v : jsstring) :
  EQUALS ∉ k ->
  raw_pair (k ++ EQUALS :: v) = (VString k, VString v).
Proof.
  intros Hk. unfold raw_pair. change (str "=") with [EQUALS].
  unfold split. rewrite split_at_first by done. simpl.
  change (split_at [EQUALS] 0 [] v) with (split [EQUALS] v).
  by rewrite join_split.
Qed.

Lemma raw_pair_valueless (param : jsstring) :
  EQUALS ∉ param ->
  raw_pair param = (VString param, VString []).
Proof.
  intros Hk. unfold raw_pair. change (str "=") with [EQUALS].
  unfold split. by rewrite split_at_absent.
Qed.

(** ** The stateful wrapper *)

Section Wrapper.

Context {A B C : Type}.

Lemma bind_assoc (m : M A) (f : A -> M B) (g : B -> M C) (st : store) :
  (do y <- (do x <- m; f x); g y) st = (do x <- m; do y <- f x; g y) st.
Proof. unfold bind. by destruct (m st) as [[e|a] st']. Qed.

Lemma bind_ret (a : A) (k : A -> M B) (st : store) :
  (do x <- ret a; k x) st = k a st.
Proof. done. Qed.

Lemma bind_alloc (o : object) (k : loc -> M B) h s :
  (do r <- alloc o; k r) (Store h s)
  = k (fresh ({[parseQuery_ref]} ∪ dom h))
      (Store (<[fresh ({[parseQuery_ref]} ∪ dom h) := o]> h) s).
Proof. done. Qed.

Lemma bind_load (r : loc) (k : object -> M B) h s :
  (do o <- load r; k o) (Store h s)
  = k (default empty_object (h !! r)) (Store h s).
Proof. done. Qed.

Lemma bind_write (r : loc) (o : object) (k : unit -> M B) h s :
  (do u <- write r o; k u) (Store h s) = k tt (Store (<[r := o]> h) s).
Proof. done. Qed.

Lemma bind_location_search (k : jsstring -> M B) h s :
  (do q <- location_search; k q) (Store h s) = k s (Store h s).
Proof. done. Qed.

End Wrapper.

Lemma fresh_not_global (h : gmap loc object) :
  fresh ({[parseQuery_ref]} ∪ dom h) <> parseQuery_ref.
Proof.
  intros E.
  pose proof (is_fresh ({[parseQuery_ref]} ∪ dom h)) as Hf.
  rewrite E in Hf. set_solver.
Qed.

Lemma fresh_not_allocated (h : gmap loc object) :
  h !! fresh ({[parseQuery_ref]} ∪ dom h) = None.
Proof.
  apply not_elem_of_dom.
  pose proof (is_fresh ({[parseQuery_ref]} ∪ dom h)) as Hf. set_solver.
Qed.

Lemma assign_empty (t : object) : assign t empty_object = t.
Proof.
  destruct t as [[q s d a x] f]. unfold assign; simpl.
  by rewrite (left_id_L ∅ (∪)).
Qed.

Lemma query_assign (t s : object) :
  is_Some (query t) -> is_Some (query (assign t s)).
Proof. intros Ht. unfold assign; simpl. by destruct (query s). Qed.

(** The tail of [parseQuery], once [config] holds the merged object. *)
Lemma parseQuery_tail (h : gmap loc object) (s : jsstring) (r : loc)
    (merged : object) :
  is_Some (query merged) ->
  (do c <- load r;
   do q <-
     lift match query c with
          | Some q => Ok q
          | None => Throw (TypeError "cannot read replace of undefined")
          end;
   do _ <- write r (set_query c (strip_question q));
   do c <- load r;
   lift (returned c)) (Store (<[r := merged]> h) s)
  = (returned (set_query merged (strip_question (default [] (query merged)))),
     Store (<[r := set_query merged
                      (strip_question (default [] (query merged)))]> h) s).
Proof.
  intros [q Hq]. unfold bind, load, write, lift; simpl.
  rewrite lookup_insert_eq; simpl. rewrite Hq; simpl.
  rewrite lookup_insert_eq, insert_insert_eq. done.
Qed.

(** The result of a call is that of the loop on [effective_config], and
    the store it leaves is the old one with new objects only. *)
Lemma parseQuery_spec (options : argument) (st : store) :
  valid_argument options st ->
  exists h',
    parseQuery options st
    = (returned (effective_config options st), Store h' (search st))
    /\ heap st ⊆ h'
    /\ h' !! parseQuery_ref = heap st !! parseQuery_ref.
Proof.
  destruct st as [h s]. intros Hv.
  pose proof (fresh_not_global h) as Hg.
  pose proof (fresh_not_allocated h) as Hn.
  unfold parseQuery, effective_config.
  cbn [search heap].
  set (base := query_object _).
  rewrite bind_location_search, bind_alloc.
  set (r := fresh ({[parseQuery_ref]} ∪ dom h)) in *.
  destruct options as [|q|o].
  - rewrite bind_ret. cbn [extend options_object].
    rewrite bind_assoc, bind_load, bind_assoc, bind_load.
    rewrite bind_assoc, bind_write, bind_ret.
    rewrite lookup_insert_eq, lookup_insert_ne by done. cbn [default].
    rewrite insert_insert_eq, assign_empty.
    rewrite parseQuery_tail by (apply query_assign; by eexists).
    eexists; split; [done|]. split.
    + by apply insert_subseteq.
    + by rewrite lookup_insert_ne.
  - rewrite bind_assoc, bind_alloc, bind_ret.
    set (h1 := <[r := _]> h).
    pose proof (fresh_not_global h1) as Hg2.
    pose proof (fresh_not_allocated h1) as Hn2.
    set (r2 := fresh ({[parseQuery_ref]} ∪ dom h1)) in *.
    assert (r2 <> r) as Hne.
    { intros E. rewrite E in Hn2. subst h1. by rewrite lookup_insert_eq in Hn2. }
    cbn [extend options_object].
    rewrite bind_assoc, bind_load, bind_assoc, bind_load.
    rewrite bind_assoc, bind_write.
    rewrite bind_assoc, bind_load, bind_assoc, bind_load.
    rewrite bind_assoc, bind_write, bind_ret.
    rewrite !lookup_insert_eq.
    rewrite (lookup_insert_ne _ r r2) by done.
    rewrite (lookup_insert_ne _ r2 r) by done.
    rewrite (lookup_insert_ne _ r2 parseQuery_ref) by done.
    rewrite lookup_insert_eq. subst h1.
    rewrite (lookup_insert_ne _ r parseQuery_ref) by done.
    rewrite lookup_insert_eq. cbn [default].
    rewrite insert_insert_eq.
    rewrite parseQuery_tail by (do 2 apply query_assign; by eexists).
    eexists; split; [done|]. split.
    + apply insert_subseteq_r; [done|]. apply insert_subseteq_r.
      * by rewrite lookup_insert_ne in Hn2.
      * by apply insert_subseteq.
    + by rewrite !lookup_insert_ne.
  - assert (o <> r) as Hne.
    { intros ->. destruct Hv as [Hv|[x Hv]]; [done|].
      cbn [heap] in Hv. by rewrite Hn in Hv. }
    cbn [extend options_object heap].
    rewrite bind_ret.
    rewrite bind_assoc, bind_load, bind_assoc, bind_load.
    rewrite bind_assoc, bind_write.
    rewrite bind_assoc, bind_load, bind_assoc, bind_load.
    rewrite bind_assoc, bind_write, bind_ret.
    rewrite !lookup_insert_eq.
    rewrite !(lookup_insert_ne _ r o) by done.
    rewrite (lookup_insert_ne _ r parseQuery_ref) by done.
    cbn [default]. rewrite !insert_insert_eq.
    rewrite parseQuery_tail by (do 2 apply query_assign; by eexists).
    eexists; split; [done|]. split.
    + by apply insert_subseteq.
    + by rewrite lookup_insert_ne.
Qed.

(** ** The object literal *)

Lemma object_prototype_accessor (key : jsstring) :
  object_prototype key = Some Accessor <-> key = PROTO.
Proof.
  unfold object_prototype. case_bool_decide as E; [done|].
  case_bool_decide; split; (done || congruence).
Qed.

Lemma put_other (params : jsobject) (key : jsstring) (v : value) :
  key <> PROTO -> put params key v = define params key (Scalar v).
Proof.
  intros Hk. unfold put.
  destruct (own params !! key), (inherits params); try done.
  destruct (object_prototype key) as [[|]|] eqn:E; try done.
  by apply object_prototype_accessor in E.
Qed.

(** ** The loop *)

Lemma each_app (config : object) (l1 l2 : list jsstring) params :
  each config (l1 ++ l2) params
  = (try params' <- each config l1 params; each config l2 params').
Proof.
  revert params. induction l1 as [|param l1 IH]; intros params; simpl; [done|].
  destruct (callback config params param) as [e|p]; simpl; [done|apply IH].
Qed.

(** A loop that returns has decoded every token. *)
Lemma each_ok_decode_all (config : object) array params params' :
  each config array params = Ok params' ->
  exists kvs, decode_all config array = Ok kvs.
Proof.
  revert params. induction array as [|param rest IH]; intros params; simpl.
  - by eexists.
  - unfold callback.
    destruct (decode_pair config param) as [e|kv]; simpl; [done|].
    destruct (store_pair config params kv.1 kv.2) as [e|p]; simpl; [done|].
    intros [kvs ->]%IH. by eexists.
Qed.

(** The token at which [decode] throws ends the loop with that
    exception, once the loop has come to it. *)
Lemma each_raises (config : object) pre param post params params' e :
  each config pre params = Ok params' ->
  decode_raises config param e ->
  each config (pre ++ param :: post) params = Throw e.
Proof.
  intros Hpre Hraise. rewrite each_app, Hpre. simpl.
  unfold callback, decode_pair. unfold decode_raises in Hraise.
  destruct (raw_pair param) as [rk rv]; simpl in *.
  destruct Hraise as [->|(k & key & -> & Hkey & Hv)]; [done|]. simpl.
  rewrite Hkey. simpl. by rewrite Hv.
Qed.

Section LoopFacts.

Variable config : object.
Variable test : jsstring -> bool.
Hypothesis Htest : array_keys config = Some test.

Lemma kinded_define (params : jsobject) key s :
  kinded test params ->
  is_sequence s = test key ->
  kinded test (define params key s).
Proof.
  intros Hk Hs key' s'. unfold define. simpl.
  rewrite lookup_insert. case_decide as E.
  - subst key'. by intros [= <-].
  - apply Hk.
Qed.

Lemma kinded_empty : kinded test (∅ : jsobject).
Proof. intros key s. simpl. by rewrite lookup_empty. Qed.

(** Every iteration that returns keeps the kinds of the keys. *)
Lemma store_pair_kinded (params : jsobject) key v (params' : jsobject) :
  kinded test params ->
  store_pair config params key v = Ok params' ->
  kinded test params'.
Proof.
  intros Hk. unfold store_pair, call_test. rewrite Htest. simpl.
  destruct (test key) eqn:Ht.
  - unfold get. destruct (own params !! key) as [s|] eqn:Hs.
    + pose proof (Hk _ _ Hs) as Hseq. rewrite Ht in Hseq.
      destruct s as [w|vs]; [done|]. simpl. intros [= <-].
      apply kinded_define; [by apply kinded_define|]. by rewrite Ht.
    + destruct (inherits params), (object_prototype key); simpl; try done;
        intros [= <-];
        (apply kinded_define; [by apply kinded_define|]; by rewrite Ht).
  - intros [= <-]. unfold put.
    destruct (own params !! key), (inherits params),
      (object_prototype key) as [[|]|]; try (by apply kinded_define);
      by destruct v.
Qed.

Lemma callback_kinded (params : jsobject) param (params' : jsobject) :
  kinded test params ->
  callback config params param = Ok params' ->
  kinded test params'.
Proof.
  intros Hk. unfold callback.
  destruct (decode_pair config param) as [e|[key v]]; simpl; [done|].
  by apply store_pair_kinded.
Qed.

Lemma each_kinded array (params params' : jsobject) :
  kinded test params ->
  each config array params = Ok params' ->
  kinded test params'.
Proof.
  revert params. induction array as [|param rest IH]; intros params Hk; simpl.
  - by intros [= <-].
  - destruct (callback config params param) as [e|p] eqn:Hc; simpl; [done|].
    apply IH. by eapply callback_kinded.
Qed.

(** A key that is storable is stored as in a plain map. *)
Lemma store_pair_eq (params : jsobject) key v :
  kinded test params ->
  storable test key ->
  store_pair config params key v
  = Ok (define params key
          (if test key then Sequence (seq_of (own params !! key) ++ [v])
           else Scalar v)).
Proof.
  intros Hk Hst. unfold store_pair, call_test. rewrite Htest. simpl.
  unfold storable in Hst. destruct (test key) eqn:Ht.
  - unfold get. rewrite Hst.
    destruct (own params !! key) as [s|] eqn:Hs; simpl.
    + apply Hk in Hs. rewrite Ht in Hs. destruct s as [|vs]; [done|]. simpl.
      unfold define. simpl. by rewrite insert_insert_eq.
    + destruct (inherits params); unfold define; simpl;
        by rewrite insert_insert_eq.
  - by rewrite put_other.
Qed.

(** When every token decodes to a storable key, the loop returns, the
    prototype is what it was, and each key holds what its occurrences
    stored, in order. *)
Lemma each_decoded array kvs (params : jsobject) :
  kinded test params ->
  decode_all config array = Ok kvs ->
  Forall (storable test) kvs.*1 ->
  exists params' : jsobject,
    each config array params = Ok params'
    /\ inherits params' = inherits params
    /\ forall key,
         own params' !! key
         = stored (test key) (own params !! key) (occurrences key kvs).
Proof.
  revert kvs params.
  induction array as [|param rest IH]; intros kvs params Hk; simpl.
  - intros [= <-] _. by exists params.
  - unfold callback.
    destruct (decode_pair config param) as [e|[k v]]; simpl; [done|].
    destruct (decode_all config rest) as [e|kvs'] eqn:Hrest; simpl; [done|].
    intros [= <-] [Hst Hall]%Forall_cons. simpl in Hst.
    rewrite store_pair_eq by done. simpl.
    set (s := if test k then Sequence (seq_of (own params !! k) ++ [v])
              else Scalar v).
    assert (kinded test (define params k s)) as Hk'.
    { apply kinded_define; [done|]. subst s. by destruct (test k). }
    destruct (IH kvs' _ Hk' eq_refl Hall) as (params' & Heach & Hin & Hlook).
    exists params'. split; [done|]. split; [done|]. intros key.
    rewrite Hlook. unfold occurrences. rewrite filter_cons. simpl.
    rewrite lookup_insert. case_decide as E.
    + subst key s. rewrite fmap_cons. simpl.
      destruct ((filter _ kvs').*2) as [|w ws]; simpl.
      * by destruct (test k).
      * destruct (test k); simpl; [by rewrite <- app_assoc|done].
    + done.
Qed.

End LoopFacts.

Lemma parseQuery_result (options : argument) (st : store) :
  valid_argument options st ->
  (parseQuery options st).1 = returned (effective_config options st).
Proof.
  intros Hv. destruct (parseQuery_spec options st Hv) as (h' & -> & _). done.
Qed.

Lemma occurrences_elem (key : jsstring) (kvs : list (jsstring * value)) :
  key ∈ kvs.*1 -> occurrences key kvs <> [].
Proof.
  unfold occurrences. induction kvs as [|[k v] kvs IH]; simpl.
  - by intros ?%elem_of_nil.
  - rewrite filter_cons. simpl. case_decide as E; [done|].
    intros [?|?]%elem_of_cons; [congruence|by apply IH].
Qed.

(** When every token decodes to a storable key, a call returns an object
    in which each key holds what its occurrences stored. *)
Lemma parseQuery_decoded options st test array kvs :
  valid_argument options st ->
  array_keys (effective_config options st) = Some test ->
  tokens (effective_config options st) = Ok array ->
  decode_all (effective_config options st) array = Ok kvs ->
  Forall (storable test) kvs.*1 ->
  exists params,
    (parseQuery options st).1 = Ok params
    /\ forall key,
         params !! key = stored (test key) None (occurrences key kvs).
Proof.
  intros Hv Ht Htok Hall Hst. rewrite parseQuery_result by done.
  unfold returned, run. rewrite Htok. simpl.
  destruct (each_decoded _ test Ht array kvs ∅ (kinded_empty test) Hall Hst)
    as (params & -> & _ & Hlook).
  exists (own params). split; [done|]. intros key.
  by rewrite Hlook.
Qed.

(** ** The claims *)

(** C1 (the code departs from the claim).  The claim and the
    documentation in the source say that the value of a token without [=]
    is decoded from [null].  The code hands [decode] the empty string: with
    a [decode] that answers ["absent"] for [null], the query [a] yields the
    empty value, exactly as [a=] does, and the raw pair of [a] carries the
    empty string. *)
Theorem valueless_token_decoded_from_empty_string :
  (parseQuery (ArgObject 1%nat) (page_with (null_aware_options (str "a")))).1
  = Ok {[ str "a" := Scalar (VString []) ]}
  /\ (parseQuery (ArgObject 1%nat)
        (page_with (null_aware_options (str "a=")))).1
     = Ok {[ str "a" := Scalar (VString []) ]}
  /\ raw_pair (str "a") = (VString (str "a"), VString [])
  /\ null_aware (fields Defaults.globals) VNull (VString (str "a"))
     = Ok (VString (str "absent")).
Proof. repeat split; vm_compute; reflexivity. Qed.

(** C2.  If [decode] throws while it decodes the raw key or the raw
    value of a token, the call throws that exception and returns no
    object: [decode] is at work on a token when the iterations for the
    tokens before it have returned.  Conversely a call that returns has
    decoded every token. *)
Theorem decode_error_aborts_parse options st array :
  valid_argument options st ->
  tokens (effective_config options st) = Ok array ->
  (forall pre param post params e,
     array = pre ++ param :: post ->
     each (effective_config options st) pre ∅ = Ok params ->
     decode_raises (effective_config options st) param e ->
     (parseQuery options st).1 = Throw e)
  /\ (forall params,
        (parseQuery options st).1 = Ok params ->
        exists kvs, decode_all (effective_config options st) array = Ok kvs).
Proof.
  intros Hv Htok. rewrite parseQuery_result by done.
  unfold returned, run. rewrite Htok. simpl. split.
  - intros pre param post params e -> Hpre Hraise.
    by rewrite (each_raises _ pre param post ∅ params e).
  - intros params.
    destruct (each (effective_config options st) array ∅) as [e|p] eqn:Heach;
      simpl; [done|]. intros _. by eapply each_ok_decode_all.
Qed.

(** [parse("a=%")] throws the URIError of [decodeURIComponent]. *)
Lemma decode_error_aborts_parse_witness :
  (parseQuery (ArgString (str "a=%")) (fresh_page [])).1 = Throw malformed.
Proof.
  apply (proj1 (decode_error_aborts_parse (ArgString (str "a=%"))
                  (fresh_page []) [str "a=%"] I eq_refl)
           [] (str "a=%") [] ∅ malformed).
  - reflexivity.
  - reflexivity.
  - right. exists (VString (str "a")), (str "a"). repeat split; reflexivity.
Defined.

(** C3.  The default decode maps [null] to the empty string, replaces
    the first literal [+] only, and then percent-decodes; the documented
    example follows. *)
Theorem default_decode_plus_then_percent :
  Defaults.default_decode VNull = Ok (VString [])
  /\ (forall pre post,
        PLUS ∉ pre ->
        Defaults.default_decode (VString (pre ++ PLUS :: post))
        = (try r <- decodeURIComponent (pre ++ SPACE :: post);
           Ok (VString r)))
  /\ (forall s,
        PLUS ∉ s ->
        Defaults.default_decode (VString s)
        = (try r <- decodeURIComponent s; Ok (VString r)))
  /\ (parseQuery (ArgString (str "a+b=c%2Bd&%C3%A6=ae")) (fresh_page [])).1
     = Ok {[ str "a b" := Scalar (VString (str "c+d"));
             [230] := Scalar (VString (str "ae")) ]}.
Proof.
  split; [reflexivity|]. split; [|split].
  - intros pre post Hpre. unfold Defaults.default_decode, or_else.
    replace (truthy (VString (pre ++ PLUS :: post))) with true
      by (by destruct pre).
    by rewrite replace_first_app.
  - intros s Hs. unfold Defaults.default_decode, or_else.
    destruct s as [|c s]; [reflexivity|]. simpl truthy. cbv iota.
    by rewrite replace_first_absent.
  - vm_compute. reflexivity.
Qed.

(** Only the first [+] of [a+b+c] becomes a space. *)
Lemma default_decode_plus_then_percent_witness :
  Defaults.default_decode (VString (str "a+b+c")) = Ok (VString (str "a b+c")).
Proof.
  change (str "a+b+c") with (str "a" ++ PLUS :: str "b+c").
  rewrite (proj1 (proj2 default_decode_plus_then_percent)
             (str "a") (str "b+c")).
  - reflexivity.
  - compute_done.
Defined.

(** C4.  Only the first [=] of a token separates the raw key from the
    raw value: what precedes it is the key, everything after it, further
    [=] included, is the value; the documented example follows. *)
Theorem first_equals_separates_key_and_value :
  (forall k v,
     EQUALS ∉ k ->
     raw_pair (k ++ EQUALS :: v) = (VString k, VString v))
  /\ (parseQuery (ArgString (str "a=b=c&%3D=%26")) (fresh_page [])).1
     = Ok {[ str "a" := Scalar (VString (str "b=c"));
             str "=" := Scalar (VString (str "&")) ]}.
Proof.
  split.
  - apply raw_pair_split.
  - vm_compute. reflexivity.
Qed.

Lemma first_equals_separates_key_and_value_witness :
  raw_pair (str "a=b=c") = (VString (str "a"), VString (str "b=c")).
Proof.
  apply (proj1 first_equals_separates_key_and_value (str "a") (str "b=c")).
  compute_done.
Defined.

(** C5 (the code departs from the claim).  The documented example is
    parsed as the claim says, but [params] is an object literal: under an
    array key that [Object.prototype] defines, such as [constructor],
    [params[key] || []] is the inherited object, and [push] throws a
    TypeError where the claim promises the array of the values. *)
Theorem array_key_of_object_prototype_throws :
  (parseQuery (ArgObject 1%nat)
     (page_with (every_key_options (str "constructor=1")))).1
  = Throw (TypeError "params[key].push is not a function")
  /\ (parseQuery (ArgObject 1%nat)
        (page_with (every_key_options (str "a=b&__proto__=c")))).1
     = Throw (TypeError "params[key].push is not a function")
  /\ (parseQuery (ArgObject 1%nat)
        (page_with (every_key_options (str "a=b&c=d&a=e")))).1
     = Ok {[ str "a" := Sequence [VString (str "b"); VString (str "e")];
             str "c" := Sequence [VString (str "d")] ]}
  /\ (parseQuery (ArgObject 1%nat)
        (page_with (bracket_options (str "a[]=b&a[]=c&d=e&d=f")))).1
     = Ok {[ str "a[]" := Sequence [VString (str "b"); VString (str "c")];
             str "d" := Scalar (VString (str "f")) ]}.
Proof. repeat split; vm_compute; reflexivity. Qed.

(** C6 (the code departs from the claim).  The documented example is
    parsed as the claim says, but [params] is an object literal: the
    assignment to the scalar key [__proto__] is taken by the setter of
    [Object.prototype], which ignores a string, so that the key is not in
    the object that is returned. *)
Theorem scalar_key_proto_is_dropped :
  (parseQuery (ArgString (str "__proto__=x")) (fresh_page [])).1 = Ok ∅
  /\ (parseQuery (ArgString (str "a=b&__proto__=x")) (fresh_page [])).1
     = Ok {[ str "a" := Scalar (VString (str "b")) ]}
  /\ (parseQuery (ArgString (str "constructor=x")) (fresh_page [])).1
     = Ok {[ str "constructor" := Scalar (VString (str "x")) ]}
  /\ (parseQuery (ArgString (str "a=b&a=c")) (fresh_page [])).1
     = Ok {[ str "a" := Scalar (VString (str "c")) ]}.
Proof. repeat split; vm_compute; reflexivity. Qed.

(** C7.  With [array_keys] a function of the decoded key, after any
    number of iterations, and so in the object that is returned, every key
    holds an array if [array_keys] accepts it and a single value if not. *)
Theorem keys_keep_their_kind options st test :
  valid_argument options st ->
  array_keys (effective_config options st) = Some test ->
  (forall params,
     (parseQuery options st).1 = Ok params -> kinded test params)
  /\ (forall array n params,
        tokens (effective_config options st) = Ok array ->
        each (effective_config options st) (take n array) ∅ = Ok params ->
        kinded test params).
Proof.
  intros Hv Ht. split.
  - intros params. rewrite parseQuery_result by done. unfold returned, run.
    destruct (tokens (effective_config options st)) as [e|array]; simpl;
      [done|].
    destruct (each (effective_config options st) array ∅) as [e|p] eqn:Heach;
      simpl; [done|]. intros [= <-].
    by eapply each_kinded; [|apply kinded_empty|].
  - intros array n params _ Heach.
    by eapply each_kinded; [|apply kinded_empty|].
Qed.

Lemma keys_keep_their_kind_witness :
  kinded (ends_with (str "[]"))
    {[ str "a[]" := Sequence [VString (str "b"); VString (str "c")];
       str "d" := Scalar (VString (str "f")) ]}.
Proof.
  apply (proj1 (keys_keep_their_kind (ArgObject 1%nat)
                  (page_with (bracket_options (str "a[]=b&a[]=c&d=e&d=f")))
                  (ends_with (str "[]"))
                  ltac:(right; vm_compute; eauto) eq_refl)).
  vm_compute. reflexivity.
Defined.

(** C8.  With the defaults on [$.parseQuery], [parse("")] returns
    [{"": ""}]: the empty query is split into one token, the empty string,
    whose key decodes to the empty string and whose value decodes to the
    empty string, as [null] does under the default decode. *)
Theorem empty_query_yields_empty_key st :
  heap st !! parseQuery_ref = Some Defaults.globals ->
  (parseQuery (ArgString []) st).1 = Ok {[ [] := Scalar (VString []) ]}
  /\ tokens (effective_config (ArgString []) st) = Ok [[]]
  /\ decode_pair (effective_config (ArgString []) st) []
     = Ok ([], VString [])
  /\ Defaults.default_decode VNull = Ok (VString []).
Proof.
  intros Hg. rewrite parseQuery_result by exact I.
  unfold effective_config. rewrite Hg. simpl.
  repeat split; vm_compute; reflexivity.
Qed.

Lemma empty_query_yields_empty_key_witness :
  (parseQuery (ArgString []) (fresh_page (str "?x=y"))).1
  = Ok {[ [] := Scalar (VString []) ]}.
Proof.
  apply (empty_query_yields_empty_key (fresh_page (str "?x=y"))).
  reflexivity.
Defined.

Lemma valid_argument_weaken options st st' :
  valid_argument options st ->
  heap st ⊆ heap st' ->
  valid_argument options st'.
Proof.
  destruct options as [| |r]; simpl; [done..|].
  intros [->|[o Ho]] Hsub; [by left|right].
  exists o. by eapply lookup_weaken.
Qed.

Lemma options_object_weaken options st st' :
  valid_argument options st ->
  heap st ⊆ heap st' ->
  heap st' !! parseQuery_ref = heap st !! parseQuery_ref ->
  options_object options st' = options_object options st.
Proof.
  destruct options as [| |r]; simpl; [done..|].
  intros [->|[o Ho]] Hsub Hg; [by rewrite Hg|].
  by rewrite Ho, (lookup_weaken _ _ _ _ Ho Hsub).
Qed.

(** The result of a call depends on the store through the page's query
    string, the properties of [$.parseQuery] and the options only. *)
Lemma parseQuery_agree options st st' :
  valid_argument options st ->
  valid_argument options st' ->
  search st' = search st ->
  heap st' !! parseQuery_ref = heap st !! parseQuery_ref ->
  options_object options st' = options_object options st ->
  (parseQuery options st').1 = (parseQuery options st).1.
Proof.
  intros Hv Hv' Hs Hg Ho. rewrite !parseQuery_result by done.
  unfold effective_config. by rewrite Hs, Hg, Ho.
Qed.

(** C9.  [decode] and [array_keys] being functions, a second call with
    the same argument, made in the store the first call left, returns the
    same result; and so do calls in any two stores that agree on the
    page's query string, on [$.parseQuery] and on the options. *)
Theorem parse_is_deterministic options st :
  valid_argument options st ->
  (parseQuery options (parseQuery options st).2).1
  = (parseQuery options st).1
  /\ (forall st',
        valid_argument options st' ->
        search st' = search st ->
        heap st' !! parseQuery_ref = heap st !! parseQuery_ref ->
        options_object options st' = options_object options st ->
        (parseQuery options st').1 = (parseQuery options st).1).
Proof.
  intros Hv. split.
  - destruct (parseQuery_spec options st Hv) as (h' & E & Hsub & Hg).
    rewrite E. cbn [fst snd].
    rewrite <- (parseQuery_result options st Hv).
    apply parseQuery_agree; [done| |done|done|].
    + by eapply valid_argument_weaken.
    + by apply options_object_weaken.
  - intros st' Hv' Hs Hg Ho. by apply parseQuery_agree.
Qed.

Lemma parse_is_deterministic_witness :
  (parseQuery (ArgObject 1%nat)
     (parseQuery (ArgObject 1%nat)
        (page_with (bracket_options (str "a[]=b&a[]=c&d=e&d=f")))).2).1
  = (parseQuery (ArgObject 1%nat)
       (page_with (bracket_options (str "a[]=b&a[]=c&d=e&d=f")))).1.
Proof.
  apply (proj1 (parse_is_deterministic (ArgObject 1%nat)
                  (page_with (bracket_options (str "a[]=b&a[]=c&d=e&d=f")))
                  ltac:(right; vm_compute; eauto))).
Defined.

(** C10.  Whether a call returns or throws, every object that was in the
    store before it, [$.parseQuery] and the caller's options among them,
    has the same fields after it, and so has the page's query string: the
    call writes to objects it has created and to no other. *)
Theorem parse_leaves_options_and_defaults options st :
  valid_argument options st ->
  heap st ⊆ heap (parseQuery options st).2
  /\ heap (parseQuery options st).2 !! parseQuery_ref
     = heap st !! parseQuery_ref
  /\ options_object options (parseQuery options st).2
     = options_object options st
  /\ search (parseQuery options st).2 = search st.
Proof.
  intros Hv. destruct (parseQuery_spec options st Hv) as (h' & -> & Hsub & Hg).
  cbn [snd heap search]. repeat split; [done..|].
  by apply options_object_weaken.
Qed.

(** A call that throws, on a page with user options. *)
Lemma parse_leaves_options_and_defaults_witness :
  let st := page_with (null_aware_options (str "a=%")) in
  (parseQuery (ArgObject 1%nat) st).1 = Throw malformed
  /\ heap st ⊆ heap (parseQuery (ArgObject 1%nat) st).2
  /\ heap (parseQuery (ArgObject 1%nat) st).2 !! parseQuery_ref
     = heap st !! parseQuery_ref
  /\ options_object (ArgObject 1%nat) (parseQuery (ArgObject 1%nat) st).2
     = options_object (ArgObject 1%nat) st
  /\ search (parseQuery (ArgObject 1%nat) st).2 = search st.
Proof.
  intros st. split; [reflexivity|].
  apply (parse_leaves_options_and_defaults (ArgObject 1%nat) st).
  right. vm_compute. eauto.
Defined.

(** ** Further properties: how the configuration is put together *)

Lemma or_empty_string (s : jsstring) :
  match or_else (VString s) (VString []) with
  | VString q => q
  | _ => []
  end = s.
Proof. by destruct s. Qed.

(** The page's query string only matters through the [query] field. *)
Lemma set_query_assign_base (b : jsstring) (g o : object) (x : jsstring) :
  set_query (assign (assign (query_object b) g) o) x
  = set_query (assign g o) x.
Proof.
  destruct g as [[gq gs gd ga gx] gf], o as [[oq os od oa ox] of'].
  unfold set_query, assign; simpl.
  rewrite (right_id_L ∅ (∪)).
  by destruct os, od, oa, of', gs, gd, ga, gf.
Qed.

Lemma set_query_assign_query (g : object) (q x : jsstring) :
  set_query (assign g (query_object q)) x = set_query g x.
Proof.
  destruct g as [[gq gs gd ga gx] gf]. unfold set_query, assign; simpl.
  by rewrite (left_id_L ∅ (∪)).
Qed.

Lemma effective_config_string (q : jsstring) (st : store) :
  effective_config (ArgString q) st
  = set_query (globals_of st) (strip_question q).
Proof.
  unfold effective_config, globals_of. cbn [options_object].
  by rewrite set_query_assign_base, set_query_assign_query.
Qed.

Lemma effective_config_undefined (st : store) :
  query (globals_of st) = None ->
  effective_config ArgUndefined st
  = set_query (globals_of st) (strip_question (search st)).
Proof.
  unfold effective_config, globals_of. cbn [options_object]. intros Hq.
  rewrite set_query_assign_base, !assign_empty. f_equal.
  unfold assign at 1; simpl. rewrite Hq. simpl.
  by rewrite or_empty_string.
Qed.

Lemma effective_config_complete (r : loc) (o : object) (st : store) :
  heap st !! r = Some o ->
  complete o ->
  effective_config (ArgObject r) st
  = Object
      (Bundle (strip_question <$> query o) (separator o) (default_decode o)
         (array_keys o) (extras o ∪ extras (globals_of st)))
      (decode o).
Proof.
  intros Hr ([q Hq] & [s Hs] & [f Hf] & [d Hd] & [a Ha]).
  unfold effective_config, globals_of. cbn [options_object]. rewrite Hr.
  cbn [default]. rewrite set_query_assign_base.
  destruct (default empty_object (heap st !! parseQuery_ref))
    as [[gq gs gd ga gx] gf].
  destruct o as [[oq os od oa ox] of']. simpl in *. subst.
  reflexivity.
Qed.

(** X1.  One leading [?] is optional: a query string that does not
    begin with [?] is parsed the same with and without a [?] in front. *)
Theorem leading_question_mark_is_optional (q : jsstring) (st : store) :
  head q <> Some QUESTION ->
  (parseQuery (ArgString (QUESTION :: q)) st).1
  = (parseQuery (ArgString q) st).1.
Proof.
  intros Hq. rewrite !parseQuery_result by exact I.
  rewrite !effective_config_string. f_equal. f_equal.
  unfold strip_question at 1. rewrite Z.eqb_refl.
  destruct q as [|c q]; [done|]. simpl.
  destruct (c =? QUESTION) eqn:E; [|done].
  apply Z.eqb_eq in E. by subst.
Qed.

Lemma leading_question_mark_is_optional_witness :
  (parseQuery (ArgString (str "?a=b&c=d")) (fresh_page [])).1
  = (parseQuery (ArgString (str "a=b&c=d")) (fresh_page [])).1.
Proof.
  apply (leading_question_mark_is_optional (str "a=b&c=d") (fresh_page [])).
  compute_done.
Defined.

(** X2.  A call without argument parses [window.location.search], as
    long as [$.parseQuery] has no [query] property of its own. *)
Theorem no_argument_parses_location_search (st : store) :
  query (globals_of st) = None ->
  (parseQuery ArgUndefined st).1
  = (parseQuery (ArgString (search st)) st).1.
Proof.
  intros Hq. rewrite !parseQuery_result by exact I.
  by rewrite effective_config_string, effective_config_undefined.
Qed.

Lemma no_argument_parses_location_search_witness :
  (parseQuery ArgUndefined (fresh_page (str "?a=b"))).1
  = (parseQuery (ArgString (str "?a=b")) (fresh_page (str "?a=b"))).1.
Proof.
  apply (no_argument_parses_location_search (fresh_page (str "?a=b"))).
  reflexivity.
Defined.

(** X3.  A string argument replaces the page's query string altogether:
    the result does not depend on [window.location.search]. *)
Theorem string_argument_ignores_location (q s : jsstring)
    (h : gmap loc object) (s' : jsstring) :
  (parseQuery (ArgString q) (Store h s)).1
  = (parseQuery (ArgString q) (Store h s')).1.
Proof.
  rewrite !parseQuery_result by exact I.
  by rewrite !effective_config_string.
Qed.

(** X4.  An options object that defines [query], [separator], [decode],
    [default_decode] and [array_keys] shields the call from the defaults:
    of [$.parseQuery] and the page only the extra fields of [$.parseQuery]
    can still be seen, by [decode] through [this]. *)
Theorem complete_options_isolate (r : loc) (o : object) (st st' : store) :
  heap st !! r = Some o ->
  heap st' !! r = Some o ->
  complete o ->
  extras (globals_of st') = extras (globals_of st) ->
  (parseQuery (ArgObject r) st').1 = (parseQuery (ArgObject r) st).1.
Proof.
  intros Hr Hr' Hc Hx.
  rewrite !parseQuery_result by (right; by eexists).
  by rewrite !(effective_config_complete r o), Hx.
Qed.

Lemma complete_options_isolate_witness :
  (parseQuery (ArgObject 1%nat)
     (other_page (complete_options (str "a=1;b=2&c=3")))).1
  = (parseQuery (ArgObject 1%nat)
       (page_with (complete_options (str "a=1;b=2&c=3")))).1.
Proof.
  apply (complete_options_isolate 1%nat
           (complete_options (str "a=1;b=2&c=3"))).
  - reflexivity.
  - reflexivity.
  - unfold complete. simpl. eauto 10.
  - reflexivity.
Defined.

(** X5.  A string argument is a shorthand for the options object
    [{query: string}]. *)
Theorem string_argument_is_query_option (q : jsstring) (r : loc)
    (st : store) :
  heap st !! r = Some (query_object q) ->
  (parseQuery (ArgObject r) st).1 = (parseQuery (ArgString q) st).1.
Proof.
  intros Hr. rewrite !parseQuery_result; [|exact I|right; by eexists].
  unfold effective_config. cbn [options_object]. by rewrite Hr.
Qed.

Lemma string_argument_is_query_option_witness :
  (parseQuery (ArgObject 1%nat) (page_with (query_object (str "?a=b&c")))).1
  = (parseQuery (ArgString (str "?a=b&c"))
       (page_with (query_object (str "?a=b&c")))).1.
Proof.
  apply (string_argument_is_query_option (str "?a=b&c") 1%nat
           (page_with (query_object (str "?a=b&c")))).
  reflexivity.
Defined.

(** ** Further properties: tokens *)

Lemma split_class_nonempty cls cur s : split_class cls cur s <> [].
Proof.
  revert cur. induction s as [|c s IH]; intros cur; simpl; [done|].
  destruct (cls c); [done|apply IH].
Qed.

(** Unless the separator is the empty string, there is a token. *)
Lemma tokens_nonempty (config : object) (array : list jsstring) :
  separator config <> Some (SepString []) ->
  tokens config = Ok array ->
  array <> [].
Proof.
  unfold tokens. intros Hsep.
  destruct (query config) as [q|]; [|done]. intros [= <-].
  destruct (separator config) as [[[|c s]|cls]|]; [done| | |done].
  - apply split_at_nonempty.
  - apply split_class_nonempty.
Qed.

Lemma query_effective_config options st :
  is_Some (query (effective_config options st)).
Proof. unfold effective_config, set_query. simpl. by eexists. Qed.

Lemma split_class_tokens cls cur (s : list Z) :
  Forall (fun c => cls c = false) cur ->
  Forall (Forall (fun c => cls c = false)) (split_class cls cur s)
  /\ length (split_class cls cur s)
     = S (length (filter (fun c => cls c = true) s)).
Proof.
  revert cur. induction s as [|c s IH]; intros cur Hcur; cbn [split_class].
  - split; [by constructor|done].
  - rewrite filter_cons. destruct (cls c) eqn:Hc.
    + rewrite decide_True by done.
      destruct (IH [] (Forall_nil_2 _)) as [IH1 IH2]. split.
      * by constructor.
      * simpl. by rewrite IH2.
    + rewrite decide_False by done.
      apply IH. apply Forall_app. split; [done|]. by repeat constructor.
Qed.

(** X6.  With a literal separator that is not empty, the tokens joined
    by the separator are the query string again: nothing is lost, and
    empty tokens are kept. *)
Theorem tokens_join_to_query (config : object) (q s : jsstring) :
  query config = Some q ->
  separator config = Some (SepString s) ->
  s <> [] ->
  exists array, tokens config = Ok array /\ join s array = q.
Proof.
  intros Hq Hs Hne. unfold tokens. rewrite Hq, Hs.
  eexists. split; [done|]. by apply join_split.
Qed.

Lemma tokens_join_to_query_witness :
  exists array,
    tokens (effective_config (ArgString (str "?a=1&&b&")) (fresh_page []))
    = Ok array
    /\ join (str "&") array = str "a=1&&b&".
Proof.
  apply (tokens_join_to_query
           (effective_config (ArgString (str "?a=1&&b&")) (fresh_page []))).
  - reflexivity.
  - reflexivity.
  - done.
Defined.

(** X7.  With a pattern separator such as [/[&;]/], no token contains a
    code unit of the class, and there is one token more than there are
    such code units in the query string. *)
Theorem pattern_tokens (config : object) (q : jsstring) (cls : Z -> bool) :
  query config = Some q ->
  separator config = Some (SepPattern cls) ->
  exists array,
    tokens config = Ok array
    /\ Forall (Forall (fun c => cls c = false)) array
    /\ length array
       = S (length (filter (fun c => cls c = true) (q : list Z))).
Proof.
  intros Hq Hs. unfold tokens. rewrite Hq, Hs.
  eexists. split; [done|]. by apply split_class_tokens.
Qed.

Lemma pattern_tokens_witness :
  exists array,
    tokens (semicolon_options (str "a=1;b=2&c=3")) = Ok array
    /\ Forall (Forall (fun c => (c =? AMP) || (c =? 59) = false)) array
    /\ length array = 3%nat.
Proof.
  apply (pattern_tokens (semicolon_options (str "a=1;b=2&c=3"))
           (str "a=1;b=2&c=3") (fun c => (c =? AMP) || (c =? 59))).
  - reflexivity.
  - reflexivity.
Defined.

(** ** Further properties: the returned object *)

(** An iteration that returns removes no own property, and it adds one
    under its key unless the key is [__proto__]. *)
Lemma store_pair_keeps (config : object) (params params' : jsobject) key v :
  store_pair config params key v = Ok params' ->
  (forall key', is_Some (own params !! key') -> is_Some (own params' !! key'))
  /\ (key <> PROTO -> is_Some (own params' !! key))
  /\ (forall key',
        is_Some (own params' !! key') ->
        key' = key \/ is_Some (own params !! key')).
Proof.
  unfold store_pair.
  destruct (call_test config key) as [e|[|]]; simpl; [done| |].
  - assert (forall s,
              (try pushed <- push s v;
               Ok (define (define params key s) key pushed)) = Ok params' ->
              (forall key',
                 is_Some (own params !! key') -> is_Some (own params' !! key'))
              /\ (key <> PROTO -> is_Some (own params' !! key))
              /\ (forall key',
                    is_Some (own params' !! key') ->
                    key' = key \/ is_Some (own params !! key'))) as H.
    { intros s. destruct (push s v) as [e|pushed]; simpl; [done|].
      intros [= <-]. simpl. rewrite insert_insert_eq. repeat split.
      - intros key' Hk. rewrite lookup_insert. by case_decide.
      - intros _. by rewrite lookup_insert_eq.
      - intros key'. rewrite lookup_insert. case_decide; auto. }
    destruct (get params key) as [s| |]; [|done|].
    + apply H.
    + exact (H (Sequence [])).
  - intros [= <-]. unfold put.
    assert ((forall key',
               is_Some (own params !! key') ->
               is_Some (own (define params key (Scalar v)) !! key'))
            /\ (key <> PROTO ->
                is_Some (own (define params key (Scalar v)) !! key))
            /\ (forall key',
                  is_Some (own (define params key (Scalar v)) !! key') ->
                  key' = key \/ is_Some (own params !! key'))) as H.
    { simpl. repeat split.
      - intros key' Hk. rewrite lookup_insert. by case_decide.
      - intros _. by rewrite lookup_insert_eq.
      - intros key'. rewrite lookup_insert. case_decide; auto. }
    destruct (own params !! key) eqn:Hown, (inherits params),
      (object_prototype key) as [[|]|] eqn:Hp; try exact H.
    apply object_prototype_accessor in Hp.
    destruct v; simpl; repeat split; auto; by intros [].
Qed.

(** The own properties of a loop that returns: those it started from and
    decoded keys, every decoded key but [__proto__] among them. *)
Lemma each_keeps (config : object) array kvs (params params' : jsobject) :
  each config array params = Ok params' ->
  decode_all config array = Ok kvs ->
  (forall key, is_Some (own params !! key) -> is_Some (own params' !! key))
  /\ (forall key,
        key ∈ kvs.*1 -> key <> PROTO -> is_Some (own params' !! key))
  /\ (forall key,
        is_Some (own params' !! key) ->
        key ∈ kvs.*1 \/ is_Some (own params !! key)).
Proof.
  revert kvs params. induction array as [|param rest IH]; intros kvs params.
  - simpl. intros [= <-] [= <-]. repeat split; auto.
    by intros key ?%elem_of_nil.
  - simpl. unfold callback.
    destruct (decode_pair config param) as [e|[k v]]; simpl; [done|].
    destruct (store_pair config params k v) as [e|p] eqn:Hs; simpl; [done|].
    destruct (decode_all config rest) as [e|kvs'] eqn:Hrest; simpl; [done|].
    intros Heach [= <-].
    destruct (store_pair_keeps _ _ _ _ _ Hs) as (Hs1 & Hs2 & Hs3).
    destruct (IH kvs' p Heach eq_refl) as (IH1 & IH2 & IH3).
    repeat split.
    + auto.
    + intros key [->|Hin]%elem_of_cons Hne; auto.
    + intros key Hkey. simpl. rewrite elem_of_cons.
      destruct (IH3 key Hkey) as [?|Hp]; [auto|].
      destruct (Hs3 key Hp); auto.
Qed.

(** X8.  A call that returns gives back an object that is not empty as
    soon as one token decodes to a key other than [__proto__]. *)
Theorem result_is_never_empty options st array kvs key params :
  valid_argument options st ->
  tokens (effective_config options st) = Ok array ->
  decode_all (effective_config options st) array = Ok kvs ->
  key ∈ kvs.*1 ->
  key <> PROTO ->
  (parseQuery options st).1 = Ok params ->
  params <> ∅.
Proof.
  intros Hv Htok Hall Hin Hne. rewrite parseQuery_result by done.
  unfold returned, run. rewrite Htok. simpl.
  destruct (each (effective_config options st) array ∅) as [e|p] eqn:Heach;
    simpl; [done|]. intros [= <-].
  destruct (each_keeps _ _ _ _ _ Heach Hall) as (_ & H & _).
  destruct (H key Hin Hne) as [s Hs]. intros Hempty.
  rewrite Hempty in Hs. by rewrite lookup_empty in Hs.
Qed.

Lemma result_is_never_empty_witness :
  ({[ [] := Scalar (VString []) ]} : gmap jsstring slot) <> ∅.
Proof.
  apply (result_is_never_empty (ArgString []) (fresh_page []) [[]]
           [([], VString [])] []).
  - exact I.
  - reflexivity.
  - reflexivity.
  - compute_done.
  - done.
  - vm_compute. reflexivity.
Defined.

(** X9.  When no [decode] is configured, neither on the options nor on
    [$.parseQuery], and there is a token, the call throws a TypeError. *)
Theorem missing_decode_throws options st :
  valid_argument options st ->
  separator (effective_config options st) <> Some (SepString []) ->
  decode (effective_config options st) = None ->
  (parseQuery options st).1
  = Throw (TypeError "config.decode is not a function").
Proof.
  intros Hv Hsep Hd. rewrite parseQuery_result by done. unfold returned, run.
  destruct (query_effective_config options st) as [q Hq].
  destruct (tokens (effective_config options st)) as [e|array] eqn:Htok.
  { unfold tokens in Htok. by rewrite Hq in Htok. }
  pose proof (tokens_nonempty _ _ Hsep Htok) as Hne.
  destruct array as [|param rest]; [done|]. simpl.
  unfold callback, decode_pair, call_decode. rewrite Hd.
  by destruct (raw_pair param).
Qed.

Lemma missing_decode_throws_witness :
  (parseQuery (ArgString (str "a=b"))
     (Store {[parseQuery_ref := empty_object]} [])).1
  = Throw (TypeError "config.decode is not a function").
Proof.
  apply (missing_decode_throws (ArgString (str "a=b"))
           (Store {[parseQuery_ref := empty_object]} [])).
  - exact I.
  - done.
  - reflexivity.
Defined.

Lemma occurrences_nil_iff (key : jsstring) (kvs : list (jsstring * value)) :
  occurrences key kvs = [] <-> key ∉ kvs.*1.
Proof.
  split.
  - intros Ho Hin. by apply occurrences_elem in Hin.
  - unfold occurrences. induction kvs as [|[k v] kvs IH]; simpl; [done|].
    intros Hn. apply not_elem_of_cons in Hn as [Hk Hn].
    rewrite filter_cons. simpl. rewrite decide_False by done. by apply IH.
Qed.

(** X10.  When every token decodes and no decoded key runs into
    [Object.prototype] (no array key is one of its names, no scalar key is
    [__proto__]), the call returns; the keys of the object are the decoded
    keys of the tokens, no more and no fewer, an array key holds the
    values of its occurrences in the order of the tokens, and a scalar
    key holds the value of its last occurrence. *)
Theorem result_keys_are_decoded_keys options st test array kvs :
  valid_argument options st ->
  array_keys (effective_config options st) = Some test ->
  tokens (effective_config options st) = Ok array ->
  decode_all (effective_config options st) array = Ok kvs ->
  Forall (storable test) kvs.*1 ->
  exists params,
    (parseQuery options st).1 = Ok params
    /\ (forall key, is_Some (params !! key) <-> key ∈ kvs.*1)
    /\ (forall key,
          test key = true ->
          key ∈ kvs.*1 ->
          params !! key = Some (Sequence (occurrences key kvs)))
    /\ (forall key v,
          test key = false ->
          last (occurrences key kvs) = Some v ->
          params !! key = Some (Scalar v)).
Proof.
  intros Hv Ht Htok Hall Hst.
  destruct (parseQuery_decoded options st test array kvs Hv Ht Htok Hall Hst)
    as (params & Hres & Hlook).
  exists params. split; [done|]. repeat split.
  - rewrite Hlook. destruct (occurrences key kvs) eqn:Ho; simpl.
    + by intros [? [=]].
    + intros _. destruct (decide (key ∈ kvs.*1)) as [|Hn]; [done|].
      apply occurrences_nil_iff in Hn. congruence.
  - intros Hin. rewrite Hlook.
    apply occurrences_elem in Hin.
    destruct (occurrences key kvs) as [|v vs] eqn:Ho; [done|]. simpl.
    destruct (test key); [by eexists|].
    destruct (last (v :: vs)) eqn:Hl; [by eexists|].
    by apply last_None in Hl.
  - intros key Hkey Hin. rewrite Hlook, Hkey.
    apply occurrences_elem in Hin.
    by destruct (occurrences key kvs).
  - intros key v Hkey Hlast. rewrite Hlook, Hkey. unfold stored.
    destruct (occurrences key kvs); [done|]. by rewrite Hlast.
Qed.

(** The occurrences of [a[]] are interleaved with those of [d], and
    [constructor] is a scalar key. *)
Lemma result_keys_are_decoded_keys_witness :
  exists params,
    (parseQuery (ArgObject 1%nat)
       (page_with
          (bracket_options (str "a[]=b&d=e&a[]=c&d=f&constructor=g")))).1
    = Ok params
    /\ (forall key,
          is_Some (params !! key)
          <-> key ∈ [str "a[]"; str "d"; str "a[]"; str "d";
                     str "constructor"])
    /\ (forall key,
          ends_with (str "[]") key = true ->
          key ∈ [str "a[]"; str "d"; str "a[]"; str "d";
                 str "constructor"] ->
          params !! key
          = Some (Sequence
                    (occurrences key
                       [(str "a[]", VString (str "b"));
                        (str "d", VString (str "e"));
                        (str "a[]", VString (str "c"));
                        (str "d", VString (str "f"));
                        (str "constructor", VString (str "g"))])))
    /\ (forall key v,
          ends_with (str "[]") key = false ->
          last (occurrences key
                  [(str "a[]", VString (str "b"));
                   (str "d", VString (str "e"));
                   (str "a[]", VString (str "c"));
                   (str "d", VString (str "f"));
                   (str "constructor", VString (str "g"))]) = Some v ->
          params !! key = Some (Scalar v)).
Proof.
  apply (result_keys_are_decoded_keys (ArgObject 1%nat)
           (page_with
              (bracket_options (str "a[]=b&d=e&a[]=c&d=f&constructor=g")))
           (ends_with (str "[]"))
           [str "a[]=b"; str "d=e"; str "a[]=c"; str "d=f";
            str "constructor=g"]
           [(str "a[]", VString (str "b")); (str "d", VString (str "e"));
            (str "a[]", VString (str "c")); (str "d", VString (str "f"));
            (str "constructor", VString (str "g"))]).
  - right. vm_compute. eauto.
  - reflexivity.
  - reflexivity.
  - reflexivity.
  - repeat constructor; compute_done.
Defined.

(** ** Further properties: the default decode *)

Lemma unescape_plain (s : jsstring) :
  PERCENT ∉ s -> unescape s = Ok (Lit <$> s).
Proof.
  induction s as [|c s IH]; intros Hs; simpl; [done|].
  apply not_elem_of_cons in Hs as [Hc Hs].
  destruct (c =? PERCENT) eqn:E; [apply Z.eqb_eq in E; congruence|].
  by rewrite IH.
Qed.

Lemma utf8_literal (s : jsstring) : utf8 (Lit <$> s) = Ok s.
Proof.
  induction s as [|c s IH]; [done|].
  rewrite fmap_cons. cbn [utf8]. by rewrite IH.
Qed.

Lemma decodeURIComponent_plain (s : jsstring) :
  PERCENT ∉ s -> decodeURIComponent s = Ok s.
Proof.
  intros Hs. unfold decodeURIComponent. rewrite unescape_plain by done.
  simpl. apply utf8_literal.
Qed.

Lemma replace_first_keeps (c d x : Z) (s : jsstring) :
  x <> c -> x <> d -> x ∉ s -> x ∉ replace_first c d s.
Proof.
  intros Hc Hd. induction s as [|y s IH]; simpl; [done|].
  intros [Hy Hs]%not_elem_of_cons.
  destruct (y =? c); apply not_elem_of_cons; auto.
Qed.

(** X11.  On a string without [%] the default decode does nothing but
    turn the first [+] into a space: it does not throw, and every other
    code unit, ASCII or not, is kept as it is. *)
Theorem default_decode_without_escapes (s : jsstring) :
  PERCENT ∉ s ->
  Defaults.default_decode (VString s)
  = Ok (VString (replace_first PLUS SPACE s)).
Proof.
  intros Hs. unfold Defaults.default_decode, or_else.
  destruct s as [|c s]; [reflexivity|]. simpl truthy. cbv iota.
  rewrite decodeURIComponent_plain; [done|].
  by apply replace_first_keeps.
Qed.

Lemma default_decode_without_escapes_witness :
  Defaults.default_decode (VString (str "1+1=2 & so on"))
  = Ok (VString (str "1 1=2 & so on")).
Proof.
  apply (default_decode_without_escapes (str "1+1=2 & so on")).
  compute_done.
Defined.

Lemma default_decode_plain (s : jsstring) :
  plain s -> Defaults.default_decode (VString s) = Ok (VString s).
Proof.
  intros (_ & Hp & Hplus). rewrite default_decode_without_escapes by done.
  by rewrite replace_first_absent.
Qed.

Lemma unescape_truncated (n : nat) (s : jsstring) :
  (length s <= n)%nat ->
  unescape (s ++ [PERCENT]) = Throw malformed
  /\ forall h, unescape (s ++ [PERCENT; h]) = Throw malformed.
Proof.
  revert s. induction n as [|n IH]; intros s Hlen.
  - destruct s; [|simpl in Hlen; lia]. by split.
  - destruct s as [|c s]; [by split|]. simpl in Hlen.
    assert (Hs : (length s <= n)%nat) by lia.
    destruct (IH s Hs) as [IH1 IH2].
    cbn [app unescape]. destruct (c =? PERCENT).
    + destruct s as [|h [|l s]].
      * split; [done|]. intros h. simpl. by destruct (hex_digit h).
      * simpl. split.
        -- by destruct (hex_digit h).
        -- intros h'. by destruct (hex_digit h).
      * simpl in Hs. destruct (IH s ltac:(lia)) as [IH1' IH2'].
        cbn [app]. destruct (hex_digit h), (hex_digit l); try done.
        split; [by rewrite IH1'|]. intros h'. by rewrite IH2'.
    + split; [by rewrite IH1|]. intros h. by rewrite IH2.
Qed.

Lemma replace_first_snoc (c d x : Z) (s : jsstring) :
  x <> c -> replace_first c d (s ++ [x]) = replace_first c d s ++ [x].
Proof.
  intros Hx. induction s as [|y s IH]; simpl.
  - destruct (x =? c) eqn:E; [apply Z.eqb_eq in E; congruence|done].
  - destruct (y =? c); [done|]. by rewrite IH.
Qed.

Lemma replace_first_snoc2 (c d x h : Z) (s : jsstring) :
  x <> c ->
  exists h', replace_first c d (s ++ [x; h]) = replace_first c d s ++ [x; h'].
Proof.
  intros Hx. induction s as [|y s [h' IH]]; simpl.
  - destruct (x =? c) eqn:E; [apply Z.eqb_eq in E; congruence|].
    destruct (h =? c); by eexists.
  - destruct (y =? c); [by eexists|]. exists h'. by rewrite IH.
Qed.

(** X12.  An input that stops right after a [%], or one code unit after
    it, makes the default decode throw the URIError, whatever comes
    before. *)
Theorem default_decode_truncated_escape (s : jsstring) (h : Z) :
  Defaults.default_decode (VString (s ++ [PERCENT])) = Throw malformed
  /\ Defaults.default_decode (VString (s ++ [PERCENT; h])) = Throw malformed.
Proof.
  unfold Defaults.default_decode, or_else, decodeURIComponent. split.
  - replace (truthy (VString (s ++ [PERCENT]))) with true by (by destruct s).
    rewrite replace_first_snoc by done.
    by rewrite (proj1 (unescape_truncated _ _ (le_n _))).
  - replace (truthy (VString (s ++ [PERCENT; h]))) with true
      by (by destruct s).
    destruct (replace_first_snoc2 PLUS SPACE PERCENT h s) as [h' ->];
      [done|].
    by rewrite (proj2 (unescape_truncated _ _ (le_n _))).
Qed.

Lemma unescape_throws (n : nat) (s : jsstring) (e : exn) :
  (length s <= n)%nat -> unescape s = Throw e -> e = malformed.
Proof.
  revert s e. induction n as [|n IH]; intros s e Hlen.
  - destruct s; [done|simpl in Hlen; lia].
  - destruct s as [|c s]; [done|]. cbn [unescape]. unfold rbind, Throw, Ok.
    repeat case_match; intros; simplify_eq; try done;
      (eapply IH; [|eassumption]; simpl in *; lia).
Qed.

Lemma utf8_throws (n : nat) (l : list item) (e : exn) :
  (length l <= n)%nat -> utf8 l = Throw e -> e = malformed.
Proof.
  revert l e. induction n as [|n IH]; intros l e Hlen.
  - destruct l; [done|simpl in Hlen; lia].
  - destruct l as [|i l]; [done|]. cbn [utf8]. unfold rbind, Throw, Ok.
    repeat case_match; intros; simplify_eq; try done;
      (eapply IH; [|eassumption]; simpl in *; lia).
Qed.

(** [decodeURIComponent] throws nothing but its URIError. *)
Lemma decodeURIComponent_throws (s : jsstring) (e : exn) :
  decodeURIComponent s = Throw e -> e = malformed.
Proof.
  unfold decodeURIComponent.
  destruct (unescape s) as [e'|l] eqn:Hu; simpl.
  - intros [= <-]. by eapply unescape_throws.
  - by eapply utf8_throws.
Qed.

Lemma default_decode_string (s : jsstring) :
  Defaults.default_decode (VString s) = Throw malformed
  \/ exists r, Defaults.default_decode (VString s) = Ok (VString r).
Proof.
  unfold Defaults.default_decode, or_else.
  assert (forall t,
            (try r <- decodeURIComponent t; Ok (VString r)) = Throw malformed
            \/ exists r,
                 (try r <- decodeURIComponent t; Ok (VString r))
                 = Ok (VString r)) as H.
  { intros t. destruct (decodeURIComponent t) as [e|r] eqn:Hd; simpl.
    - left. by rewrite (decodeURIComponent_throws _ _ Hd).
    - right. by eexists. }
  destruct (truthy (VString s)); apply H.
Qed.

(** [split] gives [shift] something to return: both halves of the raw
    pair are strings. *)
Lemma raw_pair_strings (param : jsstring) :
  exists k v, raw_pair param = (VString k, VString v).
Proof.
  unfold raw_pair. change (str "=") with [EQUALS]. unfold split.
  pose proof (split_at_nonempty [EQUALS] 0 [] param) as Hne.
  destruct (split_at [EQUALS] 0 [] param) as [|k rest]; [done|].
  simpl. by eexists _, _.
Qed.

Section DefaultDecode.

Variable config : object.
Variable test : jsstring -> bool.
Hypothesis Hdecode : decode config = Some Defaults.decode.
Hypothesis Htest : array_keys config = Some test.
Hypothesis Hnever : forall key, test key = false.

Lemma decode_pair_default (param : jsstring) :
  decode_pair config param = Throw malformed
  \/ exists key v, decode_pair config param = Ok (key, VString v).
Proof.
  unfold decode_pair, call_decode. rewrite Hdecode.
  destruct (raw_pair_strings param) as (k & v & ->).
  unfold Defaults.decode.
  destruct (default_decode_string k) as [->|[key ->]]; [by left|]. simpl.
  destruct (default_decode_string v) as [->|[r ->]]; [by left|]. simpl.
  right. by eexists _, _.
Qed.

(** With a string for value, a scalar key leaves every slot a string. *)
Lemma put_string_slots (params : jsobject) (key v : jsstring) :
  map_Forall (fun _ => string_slot) (own params) ->
  map_Forall (fun _ => string_slot) (own (put params key (VString v))).
Proof.
  intros Hall. unfold put.
  destruct (own params !! key), (inherits params),
    (object_prototype key) as [[|]|]; try done;
    (apply map_Forall_insert_2; [by eexists|done]).
Qed.

Lemma each_default (array : list jsstring) (params : jsobject) :
  map_Forall (fun _ => string_slot) (own params) ->
  each config array params = Throw malformed
  \/ exists params' : jsobject,
       each config array params = Ok params'
       /\ map_Forall (fun _ => string_slot) (own params').
Proof.
  revert params. induction array as [|param rest IH]; intros params Hall.
  - right. by exists params.
  - cbn [each]. unfold callback.
    destruct (decode_pair_default param) as [->|(key & v & ->)]; [by left|].
    simpl. unfold store_pair, call_test. rewrite Htest. simpl.
    rewrite Hnever. apply IH. by apply put_string_slots.
Qed.

End DefaultDecode.

(** X13.  With the default [decode] and an [array_keys] that accepts no
    key, whatever the separator (a literal string, a pattern of one code
    unit, or none), a call can only fail with the URIError of
    [decodeURIComponent], and when it returns, every key holds one
    string. *)
Theorem default_decode_fails_only_with_URIError options st test :
  valid_argument options st ->
  decode (effective_config options st) = Some Defaults.decode ->
  array_keys (effective_config options st) = Some test ->
  (forall key, test key = false) ->
  (parseQuery options st).1 = Throw malformed
  \/ exists params,
       (parseQuery options st).1 = Ok params
       /\ map_Forall (fun _ => string_slot) params.
Proof.
  intros Hv Hd Ht Hn. rewrite parseQuery_result by done.
  unfold returned, run.
  destruct (query_effective_config options st) as [q Hq].
  destruct (tokens (effective_config options st)) as [e|array] eqn:Htok.
  { unfold tokens in Htok. by rewrite Hq in Htok. }
  simpl.
  destruct (each_default _ test Hd Ht Hn array ∅ (map_Forall_empty _))
    as [->|(params & -> & Hall)]; [by left|].
  right. by exists (own params).
Qed.

Lemma default_decode_fails_only_with_URIError_witness :
  (parseQuery (ArgString (str "a=%E0%A4%A")) (fresh_page [])).1
  = Throw malformed
  \/ exists params,
       (parseQuery (ArgString (str "a=%E0%A4%A")) (fresh_page [])).1
       = Ok params
       /\ map_Forall (fun _ => string_slot) params.
Proof.
  apply (default_decode_fails_only_with_URIError
           (ArgString (str "a=%E0%A4%A")) (fresh_page [])
           Defaults.array_keys).
  - exact I.
  - reflexivity.
  - reflexivity.
  - reflexivity.
Defined.

(** ** Further properties: writing a query string and reading it back *)

Lemma split_join_unit (c : Z) (array : list jsstring) :
  array <> [] ->
  Forall (fun token => c ∉ token) array ->
  split [c] (join [c] array) = array.
Proof.
  unfold split. induction array as [|token rest IH]; [done|].
  intros _ [Htoken Hrest]%Forall_cons. destruct rest as [|token' rest].
  - simpl. by rewrite split_at_absent.
  - rewrite join_cons by done. cbn [app].
    rewrite split_at_first by done. f_equal. by apply IH.
Qed.

Lemma strip_question_id (s : jsstring) :
  head s <> Some QUESTION -> strip_question s = s.
Proof.
  destruct s as [|c s]; [done|]. simpl. intros Hc.
  destruct (c =? QUESTION) eqn:E; [|done].
  apply Z.eqb_eq in E. by subst.
Qed.

Lemma store_pair_scalar (config : object) test params key v :
  array_keys config = Some test ->
  test key = false ->
  key <> PROTO ->
  store_pair config params key v = Ok (define params key (Scalar v)).
Proof.
  intros Ht Hk Hne. unfold store_pair, call_test. rewrite Ht. simpl.
  by rewrite Hk, put_other.
Qed.

Lemma decode_pair_plain (config : object) (kv : jsstring * jsstring) :
  decode config = Some Defaults.decode ->
  plain_key kv.1 ->
  plain kv.2 ->
  decode_pair config (pair_token kv) = Ok (kv.1, VString kv.2).
Proof.
  intros Hd [Hk Heq] Hv. unfold decode_pair, pair_token, call_decode.
  rewrite raw_pair_split, Hd by done. unfold Defaults.decode.
  rewrite default_decode_plain by done. simpl.
  by rewrite default_decode_plain.
Qed.

Lemma each_plain (config : object) test
    (kvs : list (jsstring * jsstring)) (params : jsobject) :
  decode config = Some Defaults.decode ->
  array_keys config = Some test ->
  (forall key, test key = false) ->
  Forall (fun kv => plain_key kv.1 /\ plain kv.2) kvs ->
  Forall (fun kv => kv.1 <> PROTO) kvs ->
  each config (pair_token <$> kvs) params
  = Ok (JsObject
          (foldr (fun b => <[b.1 := b.2]>) (own params)
             (reverse (binding <$> kvs)))
          (inherits params)).
Proof.
  intros Hd Ht Hn. revert params.
  induction kvs as [|kv kvs IH]; intros params Hall Hne;
    [by destruct params|].
  apply Forall_cons in Hall as [[Hk Hv] Hall].
  apply Forall_cons in Hne as [Hp Hne].
  rewrite !fmap_cons, reverse_cons, foldr_snoc. cbn [each]. unfold callback.
  rewrite decode_pair_plain by done. simpl.
  rewrite (store_pair_scalar config test) by done. simpl.
  by rewrite IH.
Qed.

Lemma pair_token_no_amp (kv : jsstring * jsstring) :
  plain_key kv.1 -> plain kv.2 -> AMP ∉ pair_token kv.
Proof.
  intros [(Hk & _) _] (Hv & _). unfold pair_token.
  rewrite elem_of_app, elem_of_cons. intros [?|[?|?]]; done.
Qed.

(** X14.  For the defaults, a query string written as [k1=v1&...&kn=vn]
    from keys without [&], [%], [+], [=] and values without [&], [%],
    [+] is read back as exactly these pairs, the last pair of a repeated
    key winning.  Values may contain [=]; the first key must not begin
    with [?], which would be taken for the optional prefix, and no key is
    [__proto__], which the object that is returned would not keep. *)
Theorem parse_reads_back_plain_pairs (st : store)
    (kv : jsstring * jsstring) (kvs : list (jsstring * jsstring)) :
  heap st !! parseQuery_ref = Some Defaults.globals ->
  Forall (fun kv => plain_key kv.1 /\ plain kv.2) (kv :: kvs) ->
  Forall (fun kv => kv.1 <> PROTO) (kv :: kvs) ->
  head kv.1 <> Some QUESTION ->
  (parseQuery (ArgString (query_of (kv :: kvs))) st).1
  = Ok (list_to_map (reverse (binding <$> kv :: kvs))).
Proof.
  intros Hg Hall Hne Hq. rewrite parseQuery_result by exact I.
  rewrite effective_config_string. unfold globals_of. rewrite Hg.
  cbn [default].
  assert (strip_question (query_of (kv :: kvs)) = query_of (kv :: kvs))
    as ->.
  { apply strip_question_id. unfold query_of. rewrite fmap_cons.
    unfold pair_token at 1.
    destruct kv as [[|c k] v]; simpl in *.
    - by destruct (pair_token <$> kvs).
    - by destruct (pair_token <$> kvs). }
  unfold returned, run, tokens.
  cbn [query separator fields set_query Defaults.globals
    Defaults.separator rbind Ok].
  change (id Defaults.globals) with Defaults.globals.
  change (separator Defaults.globals) with (Some (SepString [AMP])).
  cbv iota. unfold query_of.
  rewrite split_join_unit.
  - by rewrite (each_plain _ Defaults.array_keys).
  - done.
  - apply Forall_fmap. eapply Forall_impl; [exact Hall|].
    intros kv' [Hk Hv]. by apply pair_token_no_amp.
Qed.

Lemma parse_reads_back_plain_pairs_witness :
  (parseQuery (ArgString (str "a=1&toString=x=y&a=2")) (fresh_page [])).1
  = Ok {[ str "a" := Scalar (VString (str "2"));
          str "toString" := Scalar (VString (str "x=y")) ]}.
Proof.
  apply (parse_reads_back_plain_pairs (fresh_page [])
           (str "a", str "1")
           [(str "toString", str "x=y"); (str "a", str "2")]).
  - reflexivity.
  - repeat constructor; compute_done.
  - repeat constructor; compute_done.
  - compute_done.
Defined.

(** ** Further properties: query strings put together *)

Lemma split_at_unit_app (c : Z) (cur a b : jsstring) :
  split_at [c] 0 cur (a ++ c :: b)
  = split_at [c] 0 cur a ++ split_at [c] 0 [] b.
Proof.
  revert cur. induction a as [|x a IH]; intros cur; simpl.
  - by rewrite Z.eqb_refl.
  - destruct (c =? x); simpl; by rewrite IH.
Qed.

Lemma strip_question_app (c : Z) (a b : jsstring) :
  c <> QUESTION ->
  strip_question (a ++ c :: b) = strip_question a ++ c :: b.
Proof.
  intros Hc. destruct a as [|x a]; simpl.
  - destruct (c =? QUESTION) eqn:E; [apply Z.eqb_eq in E; congruence|done].
  - by destruct (x =? QUESTION).
Qed.

Lemma decode_all_app (config : object) (l1 l2 : list jsstring) :
  decode_all config (l1 ++ l2)
  = (try kvs1 <- decode_all config l1;
     try kvs2 <- decode_all config l2;
     Ok (kvs1 ++ kvs2)).
Proof.
  induction l1 as [|param l1 IH]; simpl.
  - by destruct (decode_all config l2).
  - destruct (decode_pair config param) as [e|kv]; simpl; [done|].
    rewrite IH. destruct (decode_all config l1) as [e|kvs1]; simpl; [done|].
    by destruct (decode_all config l2).
Qed.

Lemma occurrences_app key (kvs1 kvs2 : list (jsstring * value)) :
  occurrences key (kvs1 ++ kvs2)
  = occurrences key kvs1 ++ occurrences key kvs2.
Proof. unfold occurrences. by rewrite filter_app, fmap_app. Qed.

Lemma stored_app (is_array : bool) (vs1 vs2 : list value) :
  stored is_array None (vs1 ++ vs2)
  = merge_slot (stored is_array None vs1) (stored is_array None vs2).
Proof.
  destruct vs1 as [|v1 vs1].
  - simpl. by destruct (stored is_array None vs2).
  - destruct vs2 as [|v2 vs2].
    + rewrite app_nil_r. simpl.
      destruct is_array; simpl; [done|]. by destruct (last (v1 :: vs1)).
    + change (stored is_array None ((v1 :: vs1) ++ v2 :: vs2))
        with (if is_array
              then Some (Sequence (v1 :: vs1 ++ v2 :: vs2))
              else Scalar <$> last ((v1 :: vs1) ++ v2 :: vs2)).
      rewrite last_app. simpl stored.
      destruct is_array; simpl; [done|].
      destruct (last (v2 :: vs2)) eqn:H2; [|by apply last_None in H2].
      destruct (last (v1 :: vs1)) eqn:H1; [done|by apply last_None in H1].
Qed.

(** A [decode] that does not use [this] does not see the query string. *)
Lemma each_set_query (g : object) (f : value -> value -> result value)
    (x : jsstring) array params :
  decode g = Some (fun _ => f) ->
  each (set_query g x) array params = each g array params.
Proof.
  intros Hd. revert params.
  induction array as [|param rest IH]; intros params; simpl; [done|].
  assert (callback (set_query g x) params param = callback g params param)
    as ->.
  { unfold callback, decode_pair, call_decode, store_pair, call_test.
    simpl. by rewrite Hd. }
  destruct (callback g params param); simpl; [done|apply IH].
Qed.

Lemma storable_or_not (test : jsstring -> bool) (key : jsstring) :
  storable test key \/ ~ storable test key.
Proof.
  unfold storable. destruct (test key).
  - destruct (object_prototype key); [by right|by left].
  - destruct (decide (key = PROTO)); [right|left]; auto.
Qed.

Section Alike.

Variable config : object.
Variable test : jsstring -> bool.
Hypothesis Htest : array_keys config = Some test.

Lemma alike_define (pa pb : jsobject) key sa sb :
  alike test pa pb ->
  is_sequence sa = test key ->
  is_sequence sb = test key ->
  alike test (define pa key sa) (define pb key sb).
Proof.
  intros (Hin & Hka & Hkb & Hp) Ha Hb.
  split; [done|]. split; [by apply kinded_define|].
  split; [by apply kinded_define|].
  intros key' Hn. simpl. rewrite !lookup_insert.
  case_decide; [done|by apply Hp].
Qed.

(** From states that are alike, an iteration throws the same exception
    or leaves states that are alike. *)
Lemma store_pair_alike (pa pb : jsobject) key v :
  alike test pa pb ->
  agree test (store_pair config pa key v) (store_pair config pb key v).
Proof.
  intros Hal. pose proof Hal as (Hin & Hka & Hkb & Hp).
  destruct (storable_or_not test key) as [Hst|Hst].
  { rewrite !(store_pair_eq config test Htest) by done. simpl.
    apply alike_define; [done| |]; by destruct (test key). }
  specialize (Hp key Hst).
  unfold storable in Hst. unfold store_pair, call_test. rewrite Htest.
  simpl. destruct (test key) eqn:Ht.
  - unfold get. rewrite <- Hin.
    destruct (object_prototype key) as [i|] eqn:Hi; [|done].
    destruct (own pa !! key) as [sa|] eqn:Ha,
             (own pb !! key) as [sb|] eqn:Hb.
    + pose proof (Hka _ _ Ha) as Hsa. pose proof (Hkb _ _ Hb) as Hsb.
      rewrite Ht in Hsa, Hsb.
      destruct sa as [|va]; [done|]. destruct sb as [|vb]; [done|]. simpl.
      apply alike_define; [|by rewrite Ht..].
      by apply alike_define; [|rewrite Ht..].
    + destruct Hp as [Hp _]. by destruct (Hp ltac:(by eexists)).
    + destruct Hp as [_ Hp]. by destruct (Hp ltac:(by eexists)).
    + destruct (inherits pa); simpl; [done|].
      apply alike_define; [|by rewrite Ht..].
      by apply alike_define; [|rewrite Ht..].
  - assert (key = PROTO) as -> by (by destruct (decide (key = PROTO))).
    unfold put. rewrite <- Hin.
    destruct (own pa !! PROTO) as [sa|] eqn:Ha,
             (own pb !! PROTO) as [sb|] eqn:Hb.
    + simpl. apply alike_define; [done|by rewrite Ht..].
    + destruct Hp as [Hp _]. by destruct (Hp ltac:(by eexists)).
    + destruct Hp as [_ Hp]. by destruct (Hp ltac:(by eexists)).
    + destruct (inherits pa) eqn:Hi; simpl;
        [|apply alike_define; [done|by rewrite Ht..]].
      destruct v; simpl; try done.
      destruct Hal as (_ & ? & ? & ?). unfold alike. simpl. auto.
Qed.

Lemma each_alike array (pa pb : jsobject) :
  alike test pa pb ->
  agree test (each config array pa) (each config array pb).
Proof.
  revert pa pb. induction array as [|param rest IH]; intros pa pb Hal; simpl.
  - done.
  - unfold callback.
    destruct (decode_pair config param) as [e|[k v]]; simpl; [done|].
    pose proof (store_pair_alike pa pb k v Hal) as Hstep.
    destruct (store_pair config pa k v) as [ea|pa'],
             (store_pair config pb k v) as [eb|pb']; simpl; try done.
    by apply IH.
Qed.

(** After tokens with storable keys the state is like the empty one. *)
Lemma each_decoded_alike array kvs (params : jsobject) :
  decode_all config array = Ok kvs ->
  Forall (storable test) kvs.*1 ->
  each config array ∅ = Ok params ->
  alike test ∅ params.
Proof.
  intros Hall Hst Heach.
  destruct (each_decoded config test Htest array kvs ∅ (kinded_empty test)
              Hall Hst) as (p & Hp & Hin & Hlook).
  rewrite Heach in Hp. injection Hp as <-.
  split; [done|]. split; [apply kinded_empty|].
  split; [by eapply each_kinded; [|apply kinded_empty|]|].
  intros key Hn. rewrite Hlook. simpl. rewrite lookup_empty.
  assert (key ∉ kvs.*1) as Hout.
  { intros Hk. apply Hn. by eapply Forall_forall in Hst. }
  apply occurrences_nil_iff in Hout. by rewrite Hout.
Qed.

End Alike.

(** The loop of a call with a string argument, for a [$.parseQuery] that
    splits on one code unit [c] and whose [decode] does not use [this]. *)
Lemma parseQuery_unit_separator (st : store) (c : Z)
    (f : value -> value -> result value) (q : jsstring) :
  separator (globals_of st) = Some (SepString [c]) ->
  decode (globals_of st) = Some (fun _ => f) ->
  (parseQuery (ArgString q) st).1
  = (try params <- each (globals_of st) (split [c] (strip_question q)) ∅;
     Ok (own params)).
Proof.
  intros Hs Hd. rewrite parseQuery_result by exact I.
  rewrite effective_config_string. unfold returned, run, tokens. simpl.
  by rewrite Hs, (each_set_query _ f).
Qed.

(** X15.  When the separator is one code unit [c], [decode] does not use
    [this], and the tokens of [q1] and of [q2] decode to storable keys,
    parsing [q1], [c] and [q2] in one string returns the results of
    parsing [q1] and [q2] merged: under a key of both, arrays are
    concatenated and a single value is the one of [q2]. *)
Theorem parse_of_joined_queries (st : store) (c : Z)
    (test : jsstring -> bool) (f : value -> value -> result value)
    (q1 q2 : jsstring) (kvs1 kvs2 : list (jsstring * value)) :
  separator (globals_of st) = Some (SepString [c]) ->
  array_keys (globals_of st) = Some test ->
  decode (globals_of st) = Some (fun _ => f) ->
  c <> QUESTION ->
  head q2 <> Some QUESTION ->
  decode_all (globals_of st) (split [c] (strip_question q1)) = Ok kvs1 ->
  decode_all (globals_of st) (split [c] q2) = Ok kvs2 ->
  Forall (storable test) kvs1.*1 ->
  Forall (storable test) kvs2.*1 ->
  exists p1 p2 p,
    (parseQuery (ArgString q1) st).1 = Ok p1
    /\ (parseQuery (ArgString q2) st).1 = Ok p2
    /\ (parseQuery (ArgString (q1 ++ c :: q2)) st).1 = Ok p
    /\ forall key, p !! key = merge_slot (p1 !! key) (p2 !! key).
Proof.
  intros Hs Ht Hd Hc Hq2 H1 H2 Hst1 Hst2.
  rewrite !(parseQuery_unit_separator st c f) by done.
  rewrite strip_question_app, (strip_question_id q2) by done.
  unfold split in *. rewrite split_at_unit_app.
  set (config := globals_of st) in *.
  destruct (each_decoded config test Ht _ kvs1 ∅ (kinded_empty test) H1 Hst1)
    as (p1 & -> & _ & Hl1).
  destruct (each_decoded config test Ht _ kvs2 ∅ (kinded_empty test) H2 Hst2)
    as (p2 & -> & _ & Hl2).
  assert (decode_all config
            (split_at [c] 0 [] (strip_question q1) ++ split_at [c] 0 [] q2)
          = Ok (kvs1 ++ kvs2)) as H12.
  { by rewrite decode_all_app, H1, H2. }
  assert (Forall (storable test) (kvs1 ++ kvs2).*1) as Hst12.
  { rewrite fmap_app. by apply Forall_app. }
  destruct (each_decoded config test Ht _ _ ∅ (kinded_empty test) H12 Hst12)
    as (p & -> & _ & Hl).
  exists (own p1), (own p2), (own p). repeat split. intros key.
  rewrite Hl, Hl1, Hl2, occurrences_app. simpl. rewrite lookup_empty.
  apply stored_app.
Qed.

Lemma parse_of_joined_queries_witness :
  exists p1 p2 p,
    (parseQuery (ArgString (str "a[]=1&b=2"))
       (Store {[parseQuery_ref :=
                  plain_globals AMP (ends_with (str "[]"))
                    (fun input _ => Defaults.default_decode input)]} [])).1
    = Ok p1
    /\ (parseQuery (ArgString (str "a[]=3&b=4"))
          (Store {[parseQuery_ref :=
                     plain_globals AMP (ends_with (str "[]"))
                       (fun input _ => Defaults.default_decode input)]}
             [])).1
       = Ok p2
    /\ (parseQuery (ArgString (str "a[]=1&b=2&a[]=3&b=4"))
          (Store {[parseQuery_ref :=
                     plain_globals AMP (ends_with (str "[]"))
                       (fun input _ => Defaults.default_decode input)]}
             [])).1
       = Ok p
    /\ forall key, p !! key = merge_slot (p1 !! key) (p2 !! key).
Proof.
  apply (parse_of_joined_queries
           (Store {[parseQuery_ref :=
                      plain_globals AMP (ends_with (str "[]"))
                        (fun input _ => Defaults.default_decode input)]} [])
           AMP (ends_with (str "[]"))
           (fun input _ => Defaults.default_decode input)
           (str "a[]=1&b=2") (str "a[]=3&b=4")
           [(str "a[]", VString (str "1")); (str "b", VString (str "2"))]
           [(str "a[]", VString (str "3")); (str "b", VString (str "4"))]).
  - reflexivity.
  - reflexivity.
  - reflexivity.
  - done.
  - compute_done.
  - reflexivity.
  - reflexivity.
  - repeat constructor; compute_done.
  - repeat constructor; compute_done.
Defined.

(** X16.  Under the same conditions on the separator and on [decode], a
    failure of either part is the failure of the whole: the exception of
    [q1] if [q1] fails, and the exception of [q2] if [q2] fails after a
    [q1] whose tokens decode to storable keys. *)
Theorem parse_of_joined_queries_throws (st : store) (c : Z)
    (test : jsstring -> bool) (f : value -> value -> result value)
    (q1 q2 : jsstring) (e : exn) :
  separator (globals_of st) = Some (SepString [c]) ->
  array_keys (globals_of st) = Some test ->
  decode (globals_of st) = Some (fun _ => f) ->
  c <> QUESTION ->
  head q2 <> Some QUESTION ->
  (parseQuery (ArgString q1) st).1 = Throw e
  \/ (exists kvs1,
        decode_all (globals_of st) (split [c] (strip_question q1)) = Ok kvs1
        /\ Forall (storable test) kvs1.*1
        /\ (parseQuery (ArgString q2) st).1 = Throw e) ->
  (parseQuery (ArgString (q1 ++ c :: q2)) st).1 = Throw e.
Proof.
  intros Hs Ht Hd Hc Hq2.
  rewrite !(parseQuery_unit_separator st c f) by done.
  rewrite strip_question_app, (strip_question_id q2) by done.
  unfold split. rewrite split_at_unit_app, each_app.
  set (config := globals_of st) in *.
  intros [H1|(kvs1 & H1 & Hst1 & H2)].
  - destruct (each config (split_at [c] 0 [] (strip_question q1)) ∅)
      as [e1|p1]; simpl in *; [done|done].
  - destruct (each_decoded config test Ht _ kvs1 ∅ (kinded_empty test)
                H1 Hst1) as (p1 & Hp1 & _).
    rewrite Hp1. simpl.
    pose proof (each_decoded_alike config test Ht _ kvs1 p1 H1 Hst1 Hp1)
      as Hal.
    pose proof (each_alike config test Ht (split_at [c] 0 [] q2) ∅ p1 Hal)
      as Hag.
    destruct (each config (split_at [c] 0 [] q2) ∅) as [e2|p2];
      simpl in H2; [|done].
    injection H2 as ->.
    by destruct (each config (split_at [c] 0 [] q2) p1) as [e1|p];
      simpl in *; [subst|].
Qed.

Lemma parse_of_joined_queries_throws_witness :
  (parseQuery (ArgString (str "a=1&constructor[]=2&b=%"))
     (Store {[parseQuery_ref :=
                plain_globals AMP (ends_with (str "[]"))
                  (fun input _ => Defaults.default_decode input)]} [])).1
  = Throw malformed.
Proof.
  apply (parse_of_joined_queries_throws
           (Store {[parseQuery_ref :=
                      plain_globals AMP (ends_with (str "[]"))
                        (fun input _ => Defaults.default_decode input)]} [])
           AMP (ends_with (str "[]"))
           (fun input _ => Defaults.default_decode input)
           (str "a=1&constructor[]=2") (str "b=%")).
  - reflexivity.
  - reflexivity.
  - reflexivity.
  - done.
  - compute_done.
  - right.
    exists [(str "a", VString (str "1"));
            (str "constructor[]", VString (str "2"))].
    split; [reflexivity|]. split; [repeat constructor; compute_done|].
    vm_compute. reflexivity.
Defined.
